(** * OpenAIProvider: the streaming answer adapter

    A shallow embedding of [OpenAIProvider] (constructor, [buildMessages],
    [generateAnswer] and the [onMessage] frame handler it hands to
    [fetchSSE]), together with the fragment of JavaScript the handler
    relies on: strings as sequences of UTF-16 code units, the values
    produced by [JSON.parse], truthiness, property access, strict
    equality with a string and string concatenation. *)

From Stdlib Require Import List NArith ZArith String Ascii Bool Sorted Lia DecimalString.
Import ListNotations.

Local Open Scope N_scope.

(** ** JavaScript strings *)

(** A JavaScript string is a finite sequence of 16-bit code units. *)
Definition char16 := N.
Definition jsstring := list char16.

(** An ASCII literal of the source, as a JavaScript string. *)
Definition u16 (s : string) : jsstring :=
  map N_of_ascii (list_ascii_of_string s).

(** A payload written with apostrophes where the wire has quotation
    marks (code unit 34), so that JSON text can be spelled out. *)
Definition wire (s : string) : jsstring :=
  map (fun c => if c =? 39 then 34 else c) (u16 s).

Fixpoint jsstring_eqb (a b : jsstring) : bool :=
  match a, b with
  | [], [] => true
  | x :: a', y :: b' => (x =? y) && jsstring_eqb a' b'
  | _, _ => false
  end.

(** [s.startsWith(p)], paired with what follows the prefix. *)
Fixpoint strip_prefix (p s : jsstring) : option jsstring :=
  match p, s with
  | [], _ => Some s
  | x :: p', y :: s' => if x =? y then strip_prefix p' s' else None
  | _ :: _, [] => None
  end.

(** ** JavaScript values *)

(** A JSON number is kept as the decimal it was written as:
    [(-1)^neg * mant * 10^exp10].  The Number it denotes is the double
    nearest to that decimal. *)
Record jsnumber := mkNum { neg : bool; mant : N; exp10 : Z }.

(** The values [JSON.parse] can produce, and [undefined], which property
    access adds.  An object is the list of its members in source order; a
    repeated key is resolved at lookup ([obj_get]). *)
#[warnings="-register-all"]
Inductive jsval :=
| JUndefined
| JNull
| JBool (b : bool)
| JNumber (n : jsnumber)
| JString (s : jsstring)
| JArray (elems : list jsval)
| JObject (members : list (jsstring * jsval)).

(** ** JSON.parse *)

Module Json.

(** Outcome of a parsing function: a value and the unread input, a
    syntax error, or recursion budget exhausted. *)
Inductive pres (A : Type) :=
| POk (a : A) (rest : jsstring)
| PErr
| PFuel.
Arguments POk {A} a rest.
Arguments PErr {A}.
Arguments PFuel {A}.

(** JSON white space: tab, line feed, carriage return, space. *)
Definition is_ws (c : char16) : bool :=
  (c =? 9) || (c =? 10) || (c =? 13) || (c =? 32).

Fixpoint skip_ws (s : jsstring) : jsstring :=
  match s with
  | c :: r => if is_ws c then skip_ws r else s
  | [] => []
  end.

(** The input after its first character, when that character is [c]. *)
Definition expect (c : char16) (s : jsstring) : option jsstring :=
  match s with
  | x :: r => if x =? c then Some r else None
  | [] => None
  end.

Definition is_digit (c : char16) : bool := (48 <=? c) && (c <=? 57).

Definition hex_val (c : char16) : option N :=
  if (48 <=? c) && (c <=? 57) then Some (c - 48)
  else if (97 <=? c) && (c <=? 102) then Some (c - 87)
  else if (65 <=? c) && (c <=? 70) then Some (c - 55)
  else None.

Definition hex4 (a b c d : char16) : option char16 :=
  match hex_val a, hex_val b, hex_val c, hex_val d with
  | Some x, Some y, Some z, Some w => Some (((x * 16 + y) * 16 + z) * 16 + w)
  | _, _, _, _ => None
  end.

(** The character a single-letter escape stands for. *)
Definition simple_escape (e : char16) : option char16 :=
  match e with
  | 34 => Some 34     (* quotation mark *)
  | 92 => Some 92     (* reverse solidus *)
  | 47 => Some 47     (* solidus *)
  | 98 => Some 8      (* b: backspace *)
  | 102 => Some 12    (* f: form feed *)
  | 110 => Some 10    (* n: line feed *)
  | 114 => Some 13    (* r: carriage return *)
  | 116 => Some 9     (* t: tab *)
  | _ => None
  end.

(** The characters of a string literal after its opening quotation mark,
    up to and including the closing one. *)
Fixpoint parse_chars (s : jsstring) : option (jsstring * jsstring) :=
  match s with
  | [] => None
  | c :: r =>
    if c =? 34 then Some ([], r)
    else if c =? 92 then
      match r with
      | [] => None
      | e :: r1 =>
        if e =? 117 then                                 (* u and four hex digits *)
          match r1 with
          | h1 :: h2 :: h3 :: h4 :: r2 =>
            match hex4 h1 h2 h3 h4, parse_chars r2 with
            | Some u, Some (t, rest) => Some (u :: t, rest)
            | _, _ => None
            end
          | _ => None
          end
        else
          match simple_escape e, parse_chars r1 with
          | Some u, Some (t, rest) => Some (u :: t, rest)
          | _, _ => None
          end
      end
    else if c <? 32 then None
    else
      match parse_chars r with
      | Some (t, rest) => Some (c :: t, rest)
      | None => None
      end
  end.

(** A run of decimal digits: the number read so far, how many digits were
    read, and the unread input. *)
Fixpoint digits (acc : N) (count : nat) (s : jsstring) : N * nat * jsstring :=
  match s with
  | c :: r => if is_digit c then digits (acc * 10 + (c - 48)) (S count) r
              else (acc, count, s)
  | [] => (acc, count, [])
  end.

(** The integer part: a single 0, or a digit 1-9 followed by digits. *)
Definition parse_int (s : jsstring) : option (N * jsstring) :=
  match s with
  | c :: r =>
    if c =? 48 then Some (0, r)
    else if is_digit c then
      let '(n, _, rest) := digits (c - 48) 1 r in Some (n, rest)
    else None
  | [] => None
  end.

(** The optional fraction: the mantissa extended by the fraction digits,
    and the number of such digits. *)
Definition parse_frac (m : N) (s : jsstring) : option (N * nat * jsstring) :=
  match expect 46 s with
  | Some r =>
    match digits m 0 r with
    | (_, O, _) => None
    | (m', S k, rest) => Some (m', S k, rest)
    end
  | None => Some (m, O, s)
  end.

(** The optional exponent. *)
Definition parse_exp (s : jsstring) : option (Z * jsstring) :=
  match s with
  | c :: r =>
    if (c =? 101) || (c =? 69) then
      let '(sgn, r1) :=
        match expect 43 r, expect 45 r with
        | Some r', _ => (1%Z, r')
        | None, Some r' => ((-1)%Z, r')
        | None, None => (1%Z, r)
        end in
      match digits 0 0 r1 with
      | (_, O, _) => None
      | (e, S _, rest) => Some ((sgn * Z.of_N e)%Z, rest)
      end
    else Some (0%Z, s)
  | [] => Some (0%Z, [])
  end.

Definition parse_number (s : jsstring) : option (jsnumber * jsstring) :=
  let '(sign, s1) :=
    match expect 45 s with
    | Some r => (true, r)
    | None => (false, s)
    end in
  match parse_int s1 with
  | None => None
  | Some (i, s2) =>
    match parse_frac i s2 with
    | None => None
    | Some (m, k, s3) =>
      match parse_exp s3 with
      | None => None
      | Some (e, s4) => Some (mkNum sign m (e - Z.of_nat k), s4)
      end
    end
  end.

(** One of the three literal names. *)
Definition parse_name (s : jsstring) : option (jsval * jsstring) :=
  match strip_prefix (u16 "true") s with
  | Some rest => Some (JBool true, rest)
  | None =>
    match strip_prefix (u16 "false") s with
    | Some rest => Some (JBool false, rest)
    | None =>
      match strip_prefix (u16 "null") s with
      | Some rest => Some (JNull, rest)
      | None => None
      end
    end
  end.

Definition of_option {A} (o : option (A * jsstring)) : pres A :=
  match o with
  | Some (a, rest) => POk a rest
  | None => PErr
  end.

Definition pmap {A B} (f : A -> B) (r : pres A) : pres B :=
  match r with
  | POk a rest => POk (f a) rest
  | PErr => PErr
  | PFuel => PFuel
  end.

(** A value; the elements of an array after its opening bracket; the
    members of an object after its opening brace.  Every recursive call
    spends one unit of [fuel]; [parse] supplies enough of it
    ([parse_value_budget]). *)
Fixpoint parse_value (fuel : nat) (s : jsstring) : pres jsval :=
  match fuel with
  | O => PFuel
  | S f =>
    match skip_ws s with
    | [] => PErr
    | c :: r =>
      if c =? 123 then                                   (* opening brace *)
        match expect 125 (skip_ws r) with
        | Some r' => POk (JObject []) r'
        | None => pmap JObject (parse_members f r)
        end
      else if c =? 91 then                               (* opening bracket *)
        match expect 93 (skip_ws r) with
        | Some r' => POk (JArray []) r'
        | None => pmap JArray (parse_elements f r)
        end
      else if c =? 34 then                               (* quotation mark *)
        pmap JString (of_option (parse_chars r))
      else if (c =? 45) || is_digit c then               (* minus or digit *)
        pmap JNumber (of_option (parse_number (c :: r)))
      else
        of_option (parse_name (c :: r))
    end
  end

with parse_elements (fuel : nat) (s : jsstring) : pres (list jsval) :=
  match fuel with
  | O => PFuel
  | S f =>
    match parse_value f s with
    | POk v r =>
      match expect 44 (skip_ws r), expect 93 (skip_ws r) with
      | Some r', _ => pmap (cons v) (parse_elements f r')          (* comma *)
      | None, Some r' => POk [v] r'                      (* closing bracket *)
      | None, None => PErr
      end
    | PErr => PErr
    | PFuel => PFuel
    end
  end

with parse_members (fuel : nat) (s : jsstring) : pres (list (jsstring * jsval)) :=
  match fuel with
  | O => PFuel
  | S f =>
    match expect 34 (skip_ws s) with
    | None => PErr
    | Some r =>
      match parse_chars r with
      | None => PErr
      | Some (k, r1) =>
        match expect 58 (skip_ws r1) with                (* colon *)
        | None => PErr
        | Some r2 =>
          match parse_value f r2 with
          | POk v r3 =>
            match expect 44 (skip_ws r3), expect 125 (skip_ws r3) with
            | Some r4, _ => pmap (cons (k, v)) (parse_members f r4)
            | None, Some r4 => POk [(k, v)] r4           (* closing brace *)
            | None, None => PErr
            end
          | PErr => PErr
          | PFuel => PFuel
          end
        end
      end
    end
  end.

(** Recursion budget that covers any text of the given length. *)
Definition budget (s : jsstring) : nat := 2 * List.length s + 2.

(** [JSON.parse(text)]: the value, or [None] where JavaScript throws a
    SyntaxError.  The whole text must be one value between white space. *)
Definition parse (text : jsstring) : option jsval :=
  match parse_value (budget text) text with
  | POk v rest =>
    match skip_ws rest with
    | [] => Some v
    | _ :: _ => None
    end
  | _ => None
  end.

End Json.

(** ** The operations of the language the handler uses *)

(** The double nearest to a decimal is zero when the decimal is zero or
    at most 2^-1075, half the least positive double (a tie goes to the
    even neighbour, which is zero). *)
Definition rounds_to_zero (n : jsnumber) : bool :=
  (mant n =? 0)
  || ((exp10 n <? 0)%Z
      && (Z.of_N (mant n) * 2 ^ 1075 <=? 10 ^ (- exp10 n))%Z).

(** ToBoolean: what [if (v)], [!v], [v && _] and [v || _] test. *)
Definition truthy (v : jsval) : bool :=
  match v with
  | JUndefined | JNull => false
  | JBool b => b
  | JNumber n => negb (rounds_to_zero n)
  | JString [] => false
  | JString (_ :: _) => true
  | JArray _ | JObject _ => true
  end.

(** The property names that occur in the handler.  None of them is a
    member of a built-in prototype, so only own properties matter. *)
Inductive key := Kid | Kchoices | Klength | K0 | Kdelta | Kfinish_reason | Kcontent.

Definition key_name (k : key) : jsstring :=
  match k with
  | Kid => u16 "id"
  | Kchoices => u16 "choices"
  | Klength => u16 "length"
  | K0 => u16 "0"
  | Kdelta => u16 "delta"
  | Kfinish_reason => u16 "finish_reason"
  | Kcontent => u16 "content"
  end.

(** Own property of a parsed object: of several members with the same
    key, the last one written stands. *)
Definition obj_get (k : jsstring) (members : list (jsstring * jsval)) : jsval :=
  fold_left (fun found m => if jsstring_eqb (fst m) k then snd m else found)
            members JUndefined.

(** Whether an object has an own property of that name, whatever its
    value. *)
Definition has_own (k : jsstring) (members : list (jsstring * jsval)) : bool :=
  existsb (fun m => jsstring_eqb (fst m) k) members.

(** A length, as a Number. *)
Definition number_of_nat (n : nat) : jsval := JNumber (mkNum false (N.of_nat n) 0).

(** Thrown values. *)
Inductive exn := SyntaxError | TypeError.

(** [v.k] and [v[0]]: [inr TypeError] on [null] and [undefined]. *)
Definition get (v : jsval) (k : key) : jsval + exn :=
  match v with
  | JUndefined | JNull => inr TypeError
  | JBool _ | JNumber _ => inl JUndefined
  | JObject members => inl (obj_get (key_name k) members)
  | JArray elems =>
    match k with
    | Klength => inl (number_of_nat (List.length elems))
    | K0 => inl (nth 0 elems JUndefined)
    | _ => inl JUndefined
    end
  | JString s =>
    match k with
    | Klength => inl (number_of_nat (List.length s))
    | K0 => inl (match s with c :: _ => JString [c] | [] => JUndefined end)
    | _ => inl JUndefined
    end
  end.

(** [v === 'stop'] and the like: strict equality with a string. *)
Definition strict_eq_string (v : jsval) (s : jsstring) : bool :=
  match v with
  | JString t => jsstring_eqb t s
  | _ => false
  end.

(** [v?.k] *)
Definition optional_get (v : jsval) (k : key) : jsval :=
  match v with
  | JUndefined | JNull => JUndefined
  | _ => match get v k with
         | inl x => x
         | inr _ => JUndefined
         end
  end.

(** [a || b] *)
Definition or_else (a b : jsval) : jsval := if truthy a then a else b.

(** ** Events and the state of one call *)

(** Modelled from the spec: the declaration of the event type handed to
    [params.onEvent] (imported from [../types]) is not among the sources;
    the spec gives it as the variant Answer{text, messageId,
    conversationId}, Done, Error{error}.  The first two are the object
    literals [onMessage] builds. *)
Inductive Event :=
| answer (text : jsstring) (messageId conversationId : jsval)
| done
| error (err : jsstring).

Definition is_answer (e : Event) : bool :=
  match e with answer _ _ _ => true | _ => false end.

Definition is_done (e : Event) : bool :=
  match e with done => true | _ => false end.

Definition is_error (e : Event) : bool :=
  match e with error _ => true | _ => false end.

(** A terminal event is a Done or an Error. *)
Definition is_terminal (e : Event) : bool := is_done e || is_error e.

Definition terminal_count (evs : list Event) : nat :=
  List.length (filter is_terminal evs).

(** The texts of the Answer events of a log, in order. *)
Fixpoint answer_texts (evs : list Event) : list jsstring :=
  match evs with
  | answer t _ _ :: r => t :: answer_texts r
  | _ :: r => answer_texts r
  | [] => []
  end.

(** An Answer event carries [id] as message and conversation identifier;
    other events carry none. *)
Definition carries (id : jsval) (e : Event) : Prop :=
  match e with
  | answer _ m c => m = id /\ c = id
  | _ => True
  end.

(** [b] extends [a]. *)
Definition prefix_of (a b : jsstring) : Prop := exists k, b = a ++ k.

(** The two variables of [generateAnswer] that [onMessage] closes over. *)
Record StreamState := mkState { result : jsstring; messageId : jsval }.

(** [let result = ''] and [let messageId = '']. *)
Definition initial : StreamState := mkState [] (JString []).

(** ** Statements: state, emitted events, early return and exceptions *)

(** How a block of statements ends: it runs to its end, executes
    [return], or throws. *)
Inductive completion (A : Type) :=
| Normal (a : A)
| Return
| Throw (e : exn).
Arguments Normal {A} a.
Arguments Return {A}.
Arguments Throw {A} e.

(** A block reads and writes the state of the call and calls
    [params.onEvent] some number of times, in order. *)
Definition M (A : Type) : Type :=
  StreamState -> completion A * StreamState * list Event.

(** The state a block leaves and the events it emitted. *)
Definition after {A} (r : completion A * StreamState * list Event) : StreamState :=
  snd (fst r).
Definition emitted {A} (r : completion A * StreamState * list Event) : list Event :=
  snd r.

Definition ret {A} (a : A) : M A := fun st => (Normal a, st, []).

Definition bind {A B} (m : M A) (k : A -> M B) : M B :=
  fun st =>
    match m st with
    | (Normal a, st1, out1) =>
      let '(c, st2, out2) := k a st1 in (c, st2, out1 ++ out2)
    | (Return, st1, out1) => (Return, st1, out1)
    | (Throw e, st1, out1) => (Throw e, st1, out1)
    end.

Declare Scope js_scope.
Delimit Scope js_scope with js.
Notation "x <- m ;; k" := (bind m (fun x => k))
  (at level 61, m at next level, right associativity) : js_scope.
Notation "m ;; k" := (bind m (fun _ => k))
  (at level 61, right associativity) : js_scope.
Notation "' pat <- m ;; k" := (bind m (fun x => match x with pat => k end))
  (at level 61, pat pattern, m at next level, right associativity) : js_scope.

(** [return] *)
Definition return_ {A} : M A := fun st => (Return, st, []).

(** [throw e] *)
Definition throw {A} (e : exn) : M A := fun st => (Throw e, st, []).

(** An operation of the language that may throw, as a statement. *)
Definition lift {A} (r : A + exn) : M A :=
  match r with
  | inl a => ret a
  | inr e => throw e
  end.

(** [try { body } catch (err) { handler }]: assignments made and events
    emitted before the throw stay. *)
Definition try_catch {A} (body : M A) (handler : exn -> M A) : M A :=
  fun st =>
    match body st with
    | (Throw e, st1, out1) =>
      let '(c, st2, out2) := handler e st1 in (c, st2, out1 ++ out2)
    | r => r
    end.

(** [params.onEvent(e)]: the event joins those the call has emitted.  The
    callback is the caller's and is taken to return; the log is the
    sequence of calls made to it. *)
Definition onEvent (e : Event) : M unit := fun st => (Normal tt, st, [e]).

(** The current value of a variable. *)
Definition read {A} (var : StreamState -> A) : M A :=
  fun st => (Normal (var st), st, []).

(** [messageId = v] *)
Definition set_messageId (v : jsval) : M unit :=
  fun st => (Normal tt, mkState (result st) v, []).

(** [result = s] *)
Definition set_result (s : jsstring) : M unit :=
  fun st => (Normal tt, mkState s (messageId st), []).

Definition skip : M unit := ret tt.

(** [JSON.parse(message)] *)
Definition JSON_parse (message : jsstring) : jsval + exn :=
  match Json.parse message with
  | Some v => inl v
  | None => inr SyntaxError
  end.

(** ** The transport, as its caller sees it *)

(** A settled promise: rejected with a reason, or resolved with a value. *)
Inductive Promise (A : Type) :=
| rejected (reason : jsstring)
| resolved (a : A).
Arguments rejected {A} reason.
Arguments resolved {A} a.

(** Modelled from the spec: [fetchSSE] (imported from [../fetch-sse]) is
    not among the sources.  By the spec it invokes the frame callback once
    per complete frame, in arrival order, until the stream ends, errors or
    is cancelled.  A call of it is therefore described by the payloads it
    hands to [onMessage], in order, and by how the promise it returns
    settles: resolved when the stream ends, rejected when the transport
    reports an error. *)
Record SSERun := mkRun { frames : list jsstring; settles : Promise unit }.

(** ** Instances for concrete runs *)

(** The runs spelled out at the end hold no number outside a string, so
    the engine's conversions between Numbers and strings (see
    [Section Adapter]) are never consulted there; these stand in for them. *)
Definition no_Number_toString (n : jsnumber) : jsstring := [].
Definition no_StringToNumber_positive (s : jsstring) : bool := false.

(** The three frames of a short stream, a frame that is no JSON, a frame
    that only reports the stop, and deltas without an identifier. *)
Definition hello_1 : jsstring := wire "{'id':'m1','choices':[{'delta':{'content':'Hel'}}]}".
Definition hello_2 : jsstring := wire "{'choices':[{'delta':{'content':'lo'}}]}".
Definition sentinel : jsstring := u16 "[DONE]".
Definition keep_alive : jsstring := u16 ": keep-alive".
Definition stop_only : jsstring := wire "{'choices':[{'delta':{},'finish_reason':'stop'}]}".
Definition delta_a : jsstring := wire "{'choices':[{'delta':{'content':'a'}}]}".
Definition delta_b : jsstring := wire "{'id':'m2','choices':[{'delta':{'content':'b'}}]}".

(** Deltas whose content is no string: an empty array, which is truthy
    and converts to the empty string, and an object with a member named
    toString, which is truthy and does not convert. *)
Definition empty_array_delta : jsstring := wire "{'choices':[{'delta':{'content':[]}}]}".
Definition unconvertible_delta : jsstring :=
  wire "{'id':'m1','choices':[{'delta':{'content':{'toString':1}}}]}".

(** A transport whose every call hands over the given frames and then
    settles as given. *)
Definition scripted {Request : Type} (fs : list jsstring) (end_ : Promise unit)
  : Request -> SSERun :=
  fun _ => mkRun fs end_.

(** Frames for the runs of the further properties: a frame without a
    choice, a payload that is no object, and a frame with two choices. *)
Definition no_choices : jsstring := wire "{'id':'m1','choices':[]}".
Definition null_payload : jsstring := u16 "null".
Definition two_choices : jsstring :=
  wire "{'choices':[{'delta':{'content':'lo'}},{'delta':{'content':'other'}}]}".

(** ** The options page *)

(** The logic of the settings page: [fetchModelsFromAPI], and of the
    components [ModelSelect] and [ConfigPanel] the handlers [loadModels],
    [save], [applyCustomModel] and the effect that keeps the configured
    model listed.  A handler is given the values
    its closure holds and yields, in order, the calls it makes to the
    setters of the component state and to its collaborators. *)
Module Options.

(** [!!s] for a string. *)
Definition nonempty (s : jsstring) : bool :=
  match s with
  | [] => false
  | _ :: _ => true
  end.

(** [`${n}`] for a length or a status code: its decimal digits. *)
Definition decimal (n : nat) : jsstring := u16 (NilZero.string_of_uint (Nat.to_uint n)).

(** A thrown value or the reason of a rejection, as far as this code looks
    at it: an [Error] made here with its message, an error of the engine,
    or what a collaborator rejected with ([instanceof Error] or not, and
    its message). *)
Inductive thrown :=
| Error_ (message : jsstring)
| Builtin (e : exn)
| Foreign (is_Error : bool) (message : jsstring).

(** How an awaited promise settles, or a block ends. *)
Inductive result (A : Type) :=
| Ok (a : A)
| Thrown (t : thrown).
Arguments Ok {A} a.
Arguments Thrown {A} t.

Definition and_then {A B} (r : result A) (k : A -> result B) : result B :=
  match r with
  | Ok a => k a
  | Thrown t => Thrown t
  end.

Definition of_sum {A} (r : A + exn) : result A :=
  match r with
  | inl a => Ok a
  | inr e => Thrown (Builtin e)
  end.

(** What [fetch] resolves with: [ok], [status], and the body as
    [response.json()] reads it, which may fail before any parsing. *)
Record Response := mkResponse {
  ok : bool;
  status : nat;
  text : result jsstring
}.

(** The surroundings of the page: [fetch], given the URL and the headers,
    and the message the engine gives its own errors. *)
Record Env := mkEnv {
  fetch : jsstring -> list (jsstring * jsstring) -> result Response;
  builtin_message : exn -> jsstring
}.

(** [v.data]; no built-in prototype has a member of that name. *)
Definition get_data (v : jsval) : jsval + exn :=
  match v with
  | JUndefined | JNull => inr TypeError
  | JObject members => inl (obj_get (u16 "data") members)
  | _ => inl JUndefined
  end.

(** The callback applied to the elements in order; the first throw ends
    the traversal. *)
Fixpoint map_throwing {A B} (f : A -> B + exn) (l : list A) : list B + exn :=
  match l with
  | [] => inl []
  | x :: r =>
    match f x with
    | inr e => inr e
    | inl y =>
      match map_throwing f r with
      | inr e => inr e
      | inl ys => inl (y :: ys)
      end
    end
  end.

(** [entries.map((model) => model.id)]: only an array has a [map] to
    call. *)
Definition map_ids (entries : jsval) : list jsval + exn :=
  match entries with
  | JArray elems => map_throwing (fun model => get model Kid) elems
  | _ => inr TypeError
  end.

(** The URL that [fetchModelsFromAPI] asks for; the default of the
    parameter stands in for an omitted base URL only. *)
Definition models_url (apiBaseUrl : option jsstring) : jsstring :=
  match apiBaseUrl with
  | Some s => s
  | None => u16 "https://api.openai.com"
  end ++ u16 "/v1/models".

Definition models_headers (apiKey : jsstring) : list (jsstring * jsstring) :=
  [ (u16 "Authorization", u16 "Bearer " ++ apiKey);
    (u16 "Content-Type", u16 "application/json") ].

(** [fetchModelsFromAPI(apiKey, apiBaseUrl = 'https://api.openai.com')];
    an omitted base URL is [None].  The body of the [try] is [attempt];
    the [catch] logs and returns the empty list. *)
Definition fetchModelsFromAPI (env : Env) (apiKey : jsstring) (apiBaseUrl : option jsstring)
  : result (list jsval) :=
  let attempt :=
    and_then (fetch env (models_url apiBaseUrl) (models_headers apiKey))
      (fun response =>
         if negb (ok response)
         then Thrown (Error_ (u16 "API error: " ++ decimal (status response)))
         else
           and_then (text response) (fun body =>
           and_then (of_sum (JSON_parse body)) (fun data =>
           and_then (of_sum (get_data data)) (fun entries =>
           of_sum (map_ids entries))))) in
  match attempt with
  | Ok ids => Ok ids
  | Thrown _ => Ok []
  end.

(** The members of [ProviderType] this page names; the enumeration is
    declared in [../config]. *)
Inductive ProviderType := ChatGPT | GPT3.

Inductive ToastType := toast_success | toast_warning | toast_error.

(** The calls a handler makes. *)
Inductive Effect :=
| setToast (text : jsstring) (type : ToastType)
| setIsLoadingModels (loading : bool)
| setModels (models : list jsval)
| setModel (model : jsval)
| alert (text : jsstring)
| saveProviderConfigs (tab : ProviderType) (model apiKey apiBaseUrl : jsstring)
| onChange (value : jsstring)
| setCustomModel (value : jsstring)
| setSearchTerm (value : jsstring)
| setIsOpen (open : bool).

(** [list.includes(s)] for a string [s]. *)
Definition includes (l : list jsval) (s : jsstring) : bool :=
  existsb (fun e => strict_eq_string e s) l.

(** [error instanceof Error ? error.message : 'Unknown error'] *)
Definition error_text (env : Env) (t : thrown) : jsstring :=
  match t with
  | Error_ message => message
  | Builtin e => builtin_message env e
  | Foreign true message => message
  | Foreign false _ => u16 "Unknown error"
  end.

(** [loadModels], with the API key and base URL of the two inputs and the
    selected model, a string as the state is declared. *)
Definition loadModels (env : Env) (apiKey apiBaseUrl model : jsstring) : list Effect :=
  if negb (nonempty apiKey)
  then [setToast (u16 "Please enter API Key first") toast_warning]
  else
    setIsLoadingModels true ::
    match fetchModelsFromAPI env apiKey
            (Some (if nonempty apiBaseUrl then apiBaseUrl
                   else u16 "https://api.openai.com")) with
    | Ok modelList =>
      if (List.length modelList =? 0)%nat
      then [setToast (u16 "No models retrieved. Please check if your API Key and API Base URL are correct")
                     toast_warning]
      else
        setModels modelList ::
        (if (0 <? List.length modelList)%nat
            && (negb (nonempty model) || negb (includes modelList model))
         then [setModel (nth 0 modelList JUndefined)]
         else [])
        ++ [setToast (u16 "Successfully retrieved " ++ decimal (List.length modelList)
                      ++ u16 " models") toast_success]
    | Thrown t =>
      [setToast (u16 "Failed to get model list: " ++ error_text env t) toast_error]
    end
    ++ [setIsLoadingModels false].

Definition is_error_toast (e : Effect) : bool :=
  match e with
  | setToast _ toast_error => true
  | _ => false
  end.

Definition is_loading_call (e : Effect) : bool :=
  match e with
  | setIsLoadingModels _ => true
  | _ => false
  end.

(** The model selected once the calls of a handler have taken effect. *)
Fixpoint selected_after (model : jsval) (effects : list Effect) : jsval :=
  match effects with
  | [] => model
  | setModel m :: r => selected_after m r
  | _ :: r => selected_after model r
  end.


(** The effect of [ConfigPanel] on [model] and [models]: the update it
    hands to [setModels], if any. *)
Definition keep_model_listed (model : jsstring) (models : list jsval)
  : option (list jsval -> list jsval) :=
  if nonempty model && negb (includes models model)
  then Some (fun prev => prev ++ [JString model])
  else None.

(** White space and line terminators, which [trim] removes. *)
Definition is_space (c : char16) : bool :=
  (c =? 9) || (c =? 10) || (c =? 11) || (c =? 12) || (c =? 13) || (c =? 32)
  || (c =? 160) || (c =? 5760) || ((8192 <=? c) && (c <=? 8202))
  || (c =? 8232) || (c =? 8233) || (c =? 8239) || (c =? 8287) || (c =? 12288)
  || (c =? 65279).

Fixpoint trimStart (s : jsstring) : jsstring :=
  match s with
  | c :: r => if is_space c then trimStart r else s
  | [] => []
  end.

Definition trimEnd (s : jsstring) : jsstring := rev (trimStart (rev s)).

(** [s.trim()] *)
Definition trim (s : jsstring) : jsstring := trimEnd (trimStart s).

(** [applyCustomModel] of [ModelSelect]. *)
Definition applyCustomModel (customModel : jsstring) : list Effect :=
  if nonempty (trim customModel)
  then [ onChange (trim customModel); setCustomModel []; setSearchTerm [];
         setIsOpen false ]
  else [].

(** For concrete runs: an API that answers every request with the given
    status and body, and a list of two models as the API sends it. *)
Definition serving (status : nat) (body : jsstring) : Env :=
  mkEnv (fun _ _ => Ok (mkResponse (Nat.leb 200 status && Nat.leb status 299) status (Ok body)))
        (fun _ => []).

Definition two_models : jsstring :=
  wire "{'object':'list','data':[{'id':'gpt-4o','object':'model'},{'id':'gpt-4o-mini'}]}".

End Options.

(** ** The provider *)

Section Adapter.

(** Two conversions between Numbers and strings are left to the engine:
    Number::toString, whose digits ECMAScript does not fix completely, and
    whether StringToNumber of a string is a Number greater than zero.
    They only matter for payloads that put a number where the protocol has
    text, or an object with a [length] member where it has the array of
    choices. *)
Variable Number_toString : jsnumber -> jsstring.
Variable StringToNumber_positive : jsstring -> bool.

(** The conversion to a string that concatenation applies to its right
    operand (ToPrimitive, then ToString).  An array is joined with commas
    by [Array.prototype.join], its [null] and [undefined] elements read as
    empty, the others converted in turn.  A parsed object has no member
    that can be called: one without an own [toString] member inherits
    [Object.prototype.toString] and reads [object Object]; an own
    [toString] member, whatever its value, hides the inherited method, the
    inherited [valueOf] gives back the object, and the conversion throws a
    TypeError. *)
Fixpoint toString (v : jsval) : jsstring + exn :=
  match v with
  | JUndefined => inl (u16 "undefined")
  | JNull => inl (u16 "null")
  | JBool true => inl (u16 "true")
  | JBool false => inl (u16 "false")
  | JNumber n => inl (Number_toString n)
  | JString s => inl s
  | JObject members =>
    if has_own (u16 "toString") members then inr TypeError
    else inl (u16 "[object Object]")
  | JArray elems =>
    (fix join (l : list jsval) : jsstring + exn :=
       match l with
       | [] => inl []
       | x :: r =>
         match (match x with
                | JUndefined | JNull => inl []
                | _ => toString x
                end) with
         | inr e => inr e
         | inl first =>
           match r with
           | [] => inl first
           | _ :: _ =>
             match join r with
             | inr e => inr e
             | inl others => inl (first ++ 44 :: others)
             end
           end
         end
       end) elems
  end.

(** [v > 0]: the operand is converted to a Number, an array and an
    object by way of the string they convert to, which throws as above;
    [undefined] and [object Object] give [NaN], which compares false. *)
Definition greater_than_zero (v : jsval) : bool + exn :=
  match v with
  | JUndefined | JNull => inl false
  | JBool b => inl b
  | JNumber n => inl (negb (neg n) && negb (rounds_to_zero n))
  | JString s => inl (StringToNumber_positive s)
  | JObject members =>
    if has_own (u16 "toString") members then inr TypeError else inl false
  | JArray _ =>
    match toString v with
    | inl s => inl (StringToNumber_positive s)
    | inr e => inr e
    end
  end.

Local Open Scope js_scope.

(** [const { delta, finish_reason } = choice]: a TypeError when the
    choice is [null] or [undefined]. *)
Definition destructure (choice : jsval) : M (jsval * jsval) :=
  delta <- lift (get choice Kdelta) ;;
  finish_reason <- lift (get choice Kfinish_reason) ;;
  ret (delta, finish_reason).

(** The frame handler [onMessage(message)] of [generateAnswer].
    ([console.debug] and [console.error] are left out.) *)
Definition onMessage (message : jsstring) : M unit :=
  if jsstring_eqb message (u16 "[DONE]") then
    onEvent done ;;
    return_
  else
    try_catch
      (data <- lift (JSON_parse message) ;;
       (* if (!messageId && data.id) messageId = data.id *)
       mid <- read messageId ;;
       (if negb (truthy mid) then
          id <- lift (get data Kid) ;;
          if truthy id then set_messageId id else skip
        else skip) ;;
       (* if (data.choices && data.choices.length > 0) *)
       choices <- lift (get data Kchoices) ;;
       nonempty <- (if truthy choices then
                      len <- lift (get choices Klength) ;;
                      lift (greater_than_zero len)
                    else ret false) ;;
       if nonempty then
         choice <- lift (get choices K0) ;;
         '(delta, finish_reason) <- destructure choice ;;
         if strict_eq_string finish_reason (u16 "stop") then
           onEvent done ;;
           return_
         else
           (* const content = delta?.content || '' *)
           let content := or_else (optional_get delta Kcontent) (JString []) in
           if truthy content then
             (* result += content *)
             r <- read result ;;
             appended <- lift (toString content) ;;
             set_result (r ++ appended) ;;
             text <- read result ;;
             mid <- read messageId ;;
             onEvent (answer text mid mid)
           else skip
       else skip)
      (fun err => return_).

(** The handler applied to the frames in order.  With a callback that
    returns it never throws ([onMessage_completes]), so each frame is
    followed by the next. *)
Fixpoint deliver (fs : list jsstring) (st : StreamState)
  : StreamState * list Event :=
  match fs with
  | [] => (st, [])
  | f :: rest =>
    let '(_, st1, out1) := onMessage f st in
    let '(st2, out2) := deliver rest st1 in
    (st2, out1 ++ out2)
  end.

(** *** The class *)

Record OpenAIProvider := mkProvider {
  token : jsstring;
  model : jsstring;
  apiBaseUrl : jsstring
}.

(** [new OpenAIProvider(token, model, apiBaseUrl?)]; an omitted argument
    is [undefined], here [None].  [apiBaseUrl || 'https://api.openai.com']
    keeps a string unless it is empty. *)
Definition new_OpenAIProvider (token model : jsstring) (apiBaseUrl : option jsstring)
  : OpenAIProvider :=
  mkProvider token model
    (match apiBaseUrl with
     | Some (c :: u) => c :: u
     | Some [] | None => u16 "https://api.openai.com"
     end).

Definition message_of (role content : jsstring) : jsval :=
  JObject [(u16 "role", JString role); (u16 "content", JString content)].

Definition buildMessages (prompt : jsstring) : list jsval :=
  [ message_of (u16 "developer") (u16 "You are a helpful assistant.");
    message_of (u16 "user") prompt ].

(** The abort signal is handed to the transport untouched. *)
Variable AbortSignal : Type.

Record GenerateAnswerParams := mkParams { prompt : jsstring; signal : AbortSignal }.

(** The arguments of the [fetchSSE] call.  [body] is the object handed to
    [JSON.stringify]; how it is serialized plays no part below. *)
Record Request := mkRequest {
  url : jsstring;
  method : jsstring;
  req_signal : AbortSignal;
  headers : list (jsstring * jsstring);
  body : jsval
}.

Definition request (self : OpenAIProvider) (params : GenerateAnswerParams) : Request :=
  mkRequest
    (apiBaseUrl self ++ u16 "/v1/chat/completions")
    (u16 "POST")
    (signal params)
    [ (u16 "Content-Type", u16 "application/json");
      (u16 "Authorization", u16 "Bearer " ++ token self) ]
    (JObject [ (u16 "model", JString (model self));
               (u16 "messages", JArray (buildMessages (prompt params)));
               (u16 "stream", JBool true) ]).

Variable fetchSSE : Request -> SSERun.

(** What a call of [generateAnswer] amounts to: the events handed to
    [params.onEvent], in order, and how the returned promise settles. *)
Record Call := mkCall { events : list Event; promise : Promise unit }.

(** [await fetchSSE(url, {..., onMessage})] followed by [return {}]: the
    frames go through the handler, starting from [result = ''] and
    [messageId = '']; a rejection of the awaited promise rejects the
    call's own, otherwise it resolves (with the empty object). *)
Definition generateAnswer (self : OpenAIProvider) (params : GenerateAnswerParams) : Call :=
  let run := fetchSSE (request self params) in
  mkCall (snd (deliver (frames run) initial))
         (match settles run with
          | rejected reason => rejected reason
          | resolved _ => resolved tt
          end).

(** *** What a frame holds, read the way the handler reads it *)

(** The identifier a frame carries: [data.id] of a payload that parses,
    when it is truthy. *)
Definition frame_id (message : jsstring) : option jsval :=
  match Json.parse message with
  | Some data =>
    match get data Kid with
    | inl id => if truthy id then Some id else None
    | inr _ => None
    end
  | None => None
  end.

(** The first choice of a payload: [data.choices[0]] when [data.choices]
    is truthy and its [length] exceeds zero; none when the comparison
    throws. *)
Definition first_choice (data : jsval) : option jsval :=
  match get data Kchoices with
  | inl choices =>
    if truthy choices then
      match get choices Klength, get choices K0 with
      | inl len, inl choice =>
        match greater_than_zero len with
        | inl true => Some choice
        | _ => None
        end
      | _, _ => None
      end
    else None
  | inr _ => None
  end.

(** The delta text of a choice: [delta?.content || '']. *)
Definition delta_content (choice : jsval) : jsval :=
  match get choice Kdelta with
  | inl delta => or_else (optional_get delta Kcontent) (JString [])
  | inr _ => JString []
  end.

(** A frame whose first choice has the finish reason ['stop']. *)
Definition stop_frame (message : jsstring) : bool :=
  match Json.parse message with
  | Some data =>
    match first_choice data with
    | Some choice =>
      match get choice Kfinish_reason with
      | inl finish_reason => strict_eq_string finish_reason (u16 "stop")
      | inr _ => false
      end
    | None => false
    end
  | None => false
  end.

(** A frame that ends the stream: the sentinel or a stop frame. *)
Definition terminal_frame (message : jsstring) : bool :=
  jsstring_eqb message (u16 "[DONE]") || stop_frame message.

(** *** The handler in one step *)

(** The state once the frame's identifier has been looked at. *)
Definition record_id (message : jsstring) (st : StreamState) : StreamState :=
  if truthy (messageId st) then st
  else match frame_id message with
       | Some id => mkState (result st) id
       | None => st
       end.

(** What a frame makes the handler do, apart from recording the
    identifier: announce the end, append a delta (the truthy value of
    [delta?.content || ''], still to be converted), or nothing. *)
Inductive action :=
| Finish
| Append (content : jsval)
| Ignore.

Definition frame_action (message : jsstring) : action :=
  if jsstring_eqb message (u16 "[DONE]") then Finish
  else
    match Json.parse message with
    | None => Ignore
    | Some data =>
      match first_choice data with
      | None => Ignore
      | Some choice =>
        match get choice Kfinish_reason with
        | inr _ => Ignore
        | inl finish_reason =>
          if strict_eq_string finish_reason (u16 "stop") then Finish
          else
            let content := delta_content choice in
            if truthy content then Append content else Ignore
        end
      end
    end.

(** The state after a frame and the events it emits
    ([onMessage_step] relates this to [onMessage]). *)
Definition step (message : jsstring) (st : StreamState) : StreamState * list Event :=
  let st1 := record_id message st in
  match frame_action message with
  | Finish => (st1, [done])
  | Append content =>
    match toString content with
    | inl appended =>
      let text := result st ++ appended in
      (mkState text (messageId st1), [answer text (messageId st1) (messageId st1)])
    | inr _ => (st1, [])
    end
  | Ignore => (st1, [])
  end.

(** *** The text a frame adds *)

(** The delta a frame appends to the accumulated text, as text; empty for
    a frame that appends nothing, as when the conversion of its content
    throws. *)
Definition frame_delta (message : jsstring) : jsstring :=
  match frame_action message with
  | Append content =>
    match toString content with
    | inl appended => appended
    | inr _ => []
    end
  | _ => []
  end.

(** *** JSON.stringify *)

(** A hexadecimal digit, in lower case. *)
Definition hex_digit (n : N) : char16 := if n <? 10 then 48 + n else 87 + n.

(** UnicodeEscape: a reverse solidus, u, and the four hexadecimal digits
    of the code unit. *)
Definition unicode_escape (c : char16) : jsstring :=
  [ 92; 117; hex_digit (c / 4096 mod 16); hex_digit (c / 256 mod 16);
    hex_digit (c / 16 mod 16); hex_digit (c mod 16) ].

Definition is_leading_surrogate (c : char16) : bool := (55296 <=? c) && (c <=? 56319).
Definition is_trailing_surrogate (c : char16) : bool := (56320 <=? c) && (c <=? 57343).

(** The characters of QuoteJSONString between the quotation marks: the
    seven short escapes, a unicode escape for the other control characters
    and for a surrogate that has no partner, and every other character as
    it is. *)
Fixpoint quote_chars (s : jsstring) : jsstring :=
  match s with
  | [] => []
  | c :: r =>
    if c =? 8 then 92 :: 98 :: quote_chars r
    else if c =? 9 then 92 :: 116 :: quote_chars r
    else if c =? 10 then 92 :: 110 :: quote_chars r
    else if c =? 12 then 92 :: 102 :: quote_chars r
    else if c =? 13 then 92 :: 114 :: quote_chars r
    else if c =? 34 then 92 :: 34 :: quote_chars r
    else if c =? 92 then 92 :: 92 :: quote_chars r
    else if c <? 32 then unicode_escape c ++ quote_chars r
    else if is_leading_surrogate c then
      match r with
      | d :: r' =>
        if is_trailing_surrogate d then c :: d :: quote_chars r'
        else unicode_escape c ++ quote_chars r
      | [] => unicode_escape c
      end
    else if is_trailing_surrogate c then unicode_escape c ++ quote_chars r
    else c :: quote_chars r
  end.

Definition QuoteJSONString (s : jsstring) : jsstring := 34 :: quote_chars s ++ [34].

(** A key that is an array index: a decimal numeral without a leading
    zero, below 2^32 - 1. *)
Definition array_index (k : jsstring) : option N :=
  match k with
  | [] => None
  | c :: r =>
    if (c =? 48) && negb (match r with [] => true | _ :: _ => false end) then None
    else
      match Json.digits 0 0 k with
      | (n, _, []) => if n <? 4294967295 then Some n else None
      | (_, _, _ :: _) => None
      end
  end.

(** The keys of a member list, each once, in the order they first occur. *)
Fixpoint first_keys {A} (seen : list jsstring) (ms : list (jsstring * A)) : list jsstring :=
  match ms with
  | [] => []
  | (k, _) :: r =>
    if existsb (jsstring_eqb k) seen then first_keys seen r
    else k :: first_keys (k :: seen) r
  end.

Fixpoint insert_index (k : N * jsstring) (l : list (N * jsstring)) : list (N * jsstring) :=
  match l with
  | [] => [k]
  | x :: r => if fst k <=? fst x then k :: l else x :: insert_index k r
  end.

(** The own property keys in the order they are enumerated: the array
    indices in ascending order, then the other keys in the order they were
    first written. *)
Definition property_keys {A} (ms : list (jsstring * A)) : list jsstring :=
  let keys := first_keys [] ms in
  map snd (fold_right insert_index []
             (flat_map (fun k => match array_index k with
                                 | Some n => [(n, k)]
                                 | None => []
                                 end) keys))
  ++ filter (fun k => match array_index k with Some _ => false | None => true end) keys.

(** The value a key has: that of the last member written with it. *)
Definition last_binding {A} (k : jsstring) (ms : list (jsstring * A)) : option A :=
  fold_left (fun found m => if jsstring_eqb (fst m) k then Some (snd m) else found)
            ms None.

(** The properties of the object a member list stands for, in
    enumeration order. *)
Definition own_properties {A} (ms : list (jsstring * A)) : list (jsstring * A) :=
  flat_map (fun k => match last_binding k ms with
                     | Some a => [(k, a)]
                     | None => []
                     end) (property_keys ms).

(** The texts joined by commas. *)
Fixpoint join_comma (texts : list jsstring) : jsstring :=
  match texts with
  | [] => []
  | [t] => t
  | t :: r => t ++ 44 :: join_comma r
  end.

(** The double nearest to a decimal is finite when the decimal is below
    2^1024 - 2^970, half way between the greatest double and 2^1024. *)
Definition rounds_to_finite (n : jsnumber) : bool :=
  if (0 <=? exp10 n)%Z
  then (Z.of_N (mant n) * 10 ^ exp10 n <? 2 ^ 1024 - 2 ^ 970)%Z
  else (Z.of_N (mant n) <? (2 ^ 1024 - 2 ^ 970) * 10 ^ (- exp10 n))%Z.

(** SerializeJSONProperty without a replacer or an indentation: the text
    of a value, [None] for [undefined].  An [undefined] element of an array
    reads null, a member of an object whose value is [undefined] is left
    out, and a Number that is not finite reads null. *)
Fixpoint serialize (v : jsval) : option jsstring :=
  match v with
  | JUndefined => None
  | JNull => Some (u16 "null")
  | JBool true => Some (u16 "true")
  | JBool false => Some (u16 "false")
  | JNumber n => Some (if rounds_to_finite n then Number_toString n else u16 "null")
  | JString s => Some (QuoteJSONString s)
  | JArray elems =>
    Some (91 :: join_comma (map (fun e => match serialize e with
                                          | Some t => t
                                          | None => u16 "null"
                                          end) elems) ++ [93])
  | JObject members =>
    Some (123 :: join_comma
                   (flat_map (fun m => match snd m with
                                       | Some t => [QuoteJSONString (fst m) ++ 58 :: t]
                                       | None => []
                                       end)
                             (own_properties
                                (map (fun m => (fst m, serialize (snd m))) members)))
              ++ [125])
  end.

(** [JSON.stringify(v)] *)
Definition JSON_stringify (v : jsval) : option jsstring := serialize v.

(** The [body] option of the [fetchSSE] call, as text. *)
Definition body_text (self : OpenAIProvider) (params : GenerateAnswerParams) : option jsstring :=
  JSON_stringify (body (request self params)).

(** The values that [JSON.stringify] writes so that [JSON.parse] reads
    them back as they are: no [undefined], no Number, and objects whose
    members stand in enumeration order, each key once. *)
#[warnings="-register-all"]
Inductive Plain : jsval -> Prop :=
| Plain_null : Plain JNull
| Plain_bool (b : bool) : Plain (JBool b)
| Plain_string (s : jsstring) : Plain (JString s)
| Plain_array (elems : list jsval) :
    Forall Plain elems -> Plain (JArray elems)
| Plain_object (members : list (jsstring * jsval)) :
    own_properties members = members ->
    Forall (fun m => Plain (snd m)) members ->
    Plain (JObject members).

(** The text of an element of an array. *)
Definition element_text (e : jsval) : jsstring :=
  match serialize e with
  | Some t => t
  | None => u16 "null"
  end.

(** The text of a member of an object whose value is not [undefined]. *)
Definition member_text (m : jsstring * jsval) : jsstring :=
  QuoteJSONString (fst m) ++ 58 :: element_text (snd m).

(** A text that begins where a value begins: not with white space and
    not with a closing bracket. *)
Definition starts_value (t : jsstring) : Prop :=
  match t with
  | c :: _ => Json.is_ws c = false /\ c <> 93
  | [] => False
  end.

(** A value whose text reads back as the value, given enough fuel. *)
Definition reads_back (v : jsval) : Prop :=
  exists t f0,
    serialize v = Some t /\ starts_value t
    /\ forall rest f, (f0 <= f)%nat -> Json.parse_value f (t ++ rest) = Json.POk v rest.

(** ** Properties *)

(** *** The parser *)

Import Json.

Lemma skip_ws_length s : (List.length (skip_ws s) <= List.length s)%nat.
Proof. induction s as [|c s IH]; simpl; [lia|]. destruct (is_ws c); simpl; lia. Qed.

Lemma expect_length c s r : expect c s = Some r -> List.length s = S (List.length r).
Proof.
  destruct s as [|x s]; simpl; [discriminate|].
  destruct (x =? c); [|discriminate]. now intros [= ->].
Qed.

Lemma expect_ws_length c s r :
  expect c (skip_ws s) = Some r -> (List.length r < List.length s)%nat.
Proof. intros H. apply expect_length in H. pose proof (skip_ws_length s). lia. Qed.

Lemma parse_chars_length s : forall t r,
  parse_chars s = Some (t, r) -> (List.length r < List.length s)%nat.
Proof.
  induction s as [s IH] using (well_founded_induction
    (Wf_nat.well_founded_ltof _ (@List.length char16))).
  unfold Wf_nat.ltof in IH. intros t r.
  destruct s as [|c s]; simpl; [discriminate|].
  destruct (c =? 34). { intros [= <- <-]. lia. }
  destruct (c =? 92).
  - destruct s as [|e s1]; [discriminate|].
    destruct (e =? 117).
    + destruct s1 as [|h1 [|h2 [|h3 [|h4 s2]]]]; try discriminate.
      destruct (hex4 h1 h2 h3 h4); [|discriminate].
      destruct (parse_chars s2) as [[t' r']|] eqn:E; [|discriminate].
      intros [= <- <-]. apply IH in E; simpl in *; lia.
    + destruct (simple_escape e); [|discriminate].
      destruct (parse_chars s1) as [[t' r']|] eqn:E; [|discriminate].
      intros [= <- <-]. apply IH in E; simpl in *; lia.
  - destruct (c <? 32); [discriminate|].
    destruct (parse_chars s) as [[t' r']|] eqn:E; [|discriminate].
    intros [= <- <-]. apply IH in E; simpl in *; lia.
Qed.

Lemma digits_length s : forall acc count n k r,
  digits acc count s = (n, k, r) -> (List.length r <= List.length s)%nat.
Proof.
  induction s as [|c s IH]; simpl; intros acc count n k r.
  - intros [= <- <- <-]. simpl. lia.
  - destruct (is_digit c).
    + intros H. apply IH in H. lia.
    + intros [= <- <- <-]. simpl. lia.
Qed.

Lemma parse_int_length s n r :
  parse_int s = Some (n, r) -> (List.length r < List.length s)%nat.
Proof.
  destruct s as [|c s]; simpl; [discriminate|].
  destruct (c =? 48). { intros [= <- <-]. lia. }
  destruct (is_digit c); [|discriminate].
  destruct (digits (c - 48) 1 s) as [[n' k] r'] eqn:E.
  intros [= <- <-]. apply digits_length in E. lia.
Qed.

Lemma parse_frac_length m s m' k r :
  parse_frac m s = Some (m', k, r) -> (List.length r <= List.length s)%nat.
Proof.
  unfold parse_frac. destruct (expect 46 s) as [r0|] eqn:E.
  - destruct (digits m 0 r0) as [[n' [|k']] r'] eqn:D; [discriminate|].
    intros [= <- <- <-]. apply digits_length in D. apply expect_length in E. lia.
  - intros [= <- <- <-]. lia.
Qed.

Lemma parse_exp_length s e r :
  parse_exp s = Some (e, r) -> (List.length r <= List.length s)%nat.
Proof.
  destruct s as [|c s]; simpl. { intros [= <- <-]. simpl; lia. }
  destruct ((c =? 101) || (c =? 69)).
  - destruct (expect 43 s) as [r1|] eqn:E1.
    + destruct (digits 0 0 r1) as [[n' [|k']] r'] eqn:D; [discriminate|].
      intros [= <- <-]. apply digits_length in D. apply expect_length in E1. lia.
    + destruct (expect 45 s) as [r1|] eqn:E2.
      * destruct (digits 0 0 r1) as [[n' [|k']] r'] eqn:D; [discriminate|].
        intros [= <- <-]. apply digits_length in D. apply expect_length in E2. lia.
      * destruct (digits 0 0 s) as [[n' [|k']] r'] eqn:D; [discriminate|].
        intros [= <- <-]. apply digits_length in D. lia.
  - intros [= <- <-]. simpl. lia.
Qed.

Lemma parse_number_length s n r :
  parse_number s = Some (n, r) -> (List.length r < List.length s)%nat.
Proof.
  unfold parse_number.
  assert (H : forall sign s1, (List.length s1 <= List.length s)%nat ->
    match parse_int s1 with
    | Some (i, s2) =>
      match parse_frac i s2 with
      | Some (m, k, s3) =>
        match parse_exp s3 with
        | Some (e, s4) => Some ({| neg := sign; mant := m; exp10 := e - Z.of_nat k |}, s4)
        | None => None
        end
      | None => None
      end
    | None => None
    end = Some (n, r) -> (List.length r < List.length s)%nat).
  { intros sign s1 Hle.
    destruct (parse_int s1) as [[i s2]|] eqn:E1; [|discriminate].
    destruct (parse_frac i s2) as [[[m k] s3]|] eqn:E2; [|discriminate].
    destruct (parse_exp s3) as [[e s4]|] eqn:E3; [|discriminate].
    intros [= <- <-]. apply parse_int_length in E1. apply parse_frac_length in E2.
    apply parse_exp_length in E3. lia. }
  destruct (expect 45 s) as [r0|] eqn:E.
  - apply H. apply expect_length in E. lia.
  - apply H. lia.
Qed.

Lemma strip_prefix_length p : forall s r,
  strip_prefix p s = Some r -> List.length s = (List.length p + List.length r)%nat.
Proof.
  induction p as [|x p IH]; intros [|y s] r; simpl; try discriminate.
  - now intros [= <-].
  - now intros [= <-].
  - destruct (x =? y); [|discriminate]. intros H. apply IH in H. lia.
Qed.

Lemma parse_name_length s v r :
  parse_name s = Some (v, r) -> (List.length r < List.length s)%nat.
Proof.
  unfold parse_name.
  destruct (strip_prefix (u16 "true") s) eqn:E1.
  { intros [= <- <-]. apply strip_prefix_length in E1. simpl in E1. lia. }
  destruct (strip_prefix (u16 "false") s) eqn:E2.
  { intros [= <- <-]. apply strip_prefix_length in E2. simpl in E2. lia. }
  destruct (strip_prefix (u16 "null") s) eqn:E3; [|discriminate].
  intros [= <- <-]. apply strip_prefix_length in E3. simpl in E3. lia.
Qed.

Lemma of_option_length {A} (o : option (A * jsstring)) (bound : nat) a r :
  (forall a r, o = Some (a, r) -> (List.length r < bound)%nat) ->
  of_option o = POk a r -> (List.length r < bound)%nat.
Proof. destruct o as [[a' r']|]; simpl; [|discriminate]. intros H [= <- <-]. now apply (H a'). Qed.

Lemma pmap_ok {A B} (f : A -> B) (x : pres A) b r :
  pmap f x = POk b r -> exists a, x = POk a r /\ b = f a.
Proof. destruct x; simpl; try discriminate. intros [= <- <-]. eauto. Qed.

(** Every parsing function that succeeds has consumed input. *)
Lemma parse_consumes fuel :
  (forall s v r, parse_value fuel s = POk v r -> (List.length r < List.length s)%nat)
  /\ (forall s vs r, parse_elements fuel s = POk vs r -> (List.length r < List.length s)%nat)
  /\ (forall s ms r, parse_members fuel s = POk ms r -> (List.length r < List.length s)%nat).
Proof.
  induction fuel as [|f (IHv & IHe & IHm)]; [repeat split; discriminate|].
  repeat split.
  - intros s v r. simpl. pose proof (skip_ws_length s) as Hws.
    destruct (skip_ws s) as [|c s1]; [discriminate|]. simpl in Hws.
    destruct (c =? 123).
    { destruct (expect 125 (skip_ws s1)) eqn:E.
      - intros [= <- <-]. apply expect_ws_length in E. lia.
      - intros H. apply pmap_ok in H as (ms & H & _). apply IHm in H. lia. }
    destruct (c =? 91).
    { destruct (expect 93 (skip_ws s1)) eqn:E.
      - intros [= <- <-]. apply expect_ws_length in E. lia.
      - intros H. apply pmap_ok in H as (ms & H & _). apply IHe in H. lia. }
    destruct (c =? 34).
    { intros H. apply pmap_ok in H as (t & H & _).
      apply of_option_length with (bound := List.length s1) in H; [lia|].
      intros a r0. apply parse_chars_length. }
    destruct ((c =? 45) || is_digit c).
    { intros H. apply pmap_ok in H as (t & H & _).
      apply of_option_length with (bound := List.length (c :: s1)) in H; [simpl in H; lia|].
      intros a r0. apply parse_number_length. }
    intros H.
    apply of_option_length with (bound := List.length (c :: s1)) in H; [simpl in H; lia|].
    intros a r0. apply parse_name_length.
  - intros s vs r. simpl.
    destruct (parse_value f s) as [v r1| |] eqn:E; try discriminate.
    apply IHv in E.
    destruct (expect 44 (skip_ws r1)) as [r2|] eqn:E1.
    { intros H. apply pmap_ok in H as (t & H & _). apply IHe in H.
      apply expect_ws_length in E1. lia. }
    destruct (expect 93 (skip_ws r1)) as [r2|] eqn:E2; [|discriminate].
    intros [= <- <-]. apply expect_ws_length in E2. lia.
  - intros s ms r. simpl.
    destruct (expect 34 (skip_ws s)) as [r0|] eqn:E0; [|discriminate].
    apply expect_ws_length in E0.
    destruct (parse_chars r0) as [[k r1]|] eqn:E1; [|discriminate].
    apply parse_chars_length in E1.
    destruct (expect 58 (skip_ws r1)) as [r2|] eqn:E2; [|discriminate].
    apply expect_ws_length in E2.
    destruct (parse_value f r2) as [v r3| |] eqn:E3; try discriminate.
    apply IHv in E3.
    destruct (expect 44 (skip_ws r3)) as [r4|] eqn:E4.
    { intros H. apply pmap_ok in H as (t & H & _). apply IHm in H.
      apply expect_ws_length in E4. lia. }
    destruct (expect 125 (skip_ws r3)) as [r4|] eqn:E5; [|discriminate].
    intros [= <- <-]. apply expect_ws_length in E5. lia.
Qed.

Lemma pmap_fuel {A B} (f : A -> B) (x : pres A) : pmap f x = PFuel -> x = PFuel.
Proof. destruct x; simpl; congruence. Qed.

Lemma of_option_fuel {A} (o : option (A * jsstring)) : of_option o <> PFuel.
Proof. destruct o as [[a r]|]; simpl; congruence. Qed.

(** With fuel beyond twice the length of the input, no parsing function
    stops for lack of fuel. *)
Lemma parse_enough_fuel fuel :
  (forall s, (2 * List.length s < fuel)%nat -> parse_value fuel s <> PFuel)
  /\ (forall s, (2 * List.length s + 1 < fuel)%nat -> parse_elements fuel s <> PFuel)
  /\ (forall s, (2 * List.length s < fuel)%nat -> parse_members fuel s <> PFuel).
Proof.
  induction fuel as [|f (IHv & IHe & IHm)]; [repeat split; intros; lia|].
  repeat split.
  - intros s Hf. simpl. pose proof (skip_ws_length s) as Hws.
    destruct (skip_ws s) as [|c s1]; [discriminate|]. simpl in Hws.
    destruct (c =? 123).
    { destruct (expect 125 (skip_ws s1)); [discriminate|].
      intros H. apply pmap_fuel in H. revert H. apply IHm. lia. }
    destruct (c =? 91).
    { destruct (expect 93 (skip_ws s1)); [discriminate|].
      intros H. apply pmap_fuel in H. revert H. apply IHe. lia. }
    destruct (c =? 34).
    { intros H. apply pmap_fuel in H. revert H. apply of_option_fuel. }
    destruct ((c =? 45) || is_digit c).
    { intros H. apply pmap_fuel in H. revert H. apply of_option_fuel. }
    apply of_option_fuel.
  - intros s Hf. simpl.
    destruct (parse_value f s) as [v r1| |] eqn:E; try discriminate.
    2: { exfalso. revert E. apply IHv. lia. }
    apply (proj1 (parse_consumes f)) in E.
    destruct (expect 44 (skip_ws r1)) as [r2|] eqn:E1.
    { apply expect_ws_length in E1.
      intros H. apply pmap_fuel in H. revert H. apply IHe. lia. }
    destruct (expect 93 (skip_ws r1)); discriminate.
  - intros s Hf. simpl.
    destruct (expect 34 (skip_ws s)) as [r0|] eqn:E0; [|discriminate].
    apply expect_ws_length in E0.
    destruct (parse_chars r0) as [[k r1]|] eqn:E1; [|discriminate].
    apply parse_chars_length in E1.
    destruct (expect 58 (skip_ws r1)) as [r2|] eqn:E2; [|discriminate].
    apply expect_ws_length in E2.
    destruct (parse_value f r2) as [v r3| |] eqn:E3; try discriminate.
    2: { exfalso. revert E3. apply IHv. lia. }
    apply (proj1 (parse_consumes f)) in E3.
    destruct (expect 44 (skip_ws r3)) as [r4|] eqn:E4.
    { apply expect_ws_length in E4.
      intros H. apply pmap_fuel in H. revert H. apply IHm. lia. }
    destruct (expect 125 (skip_ws r3)); discriminate.
Qed.

(** [JSON.parse] is given enough fuel for every text. *)
Lemma parse_value_budget text : parse_value (budget text) text <> PFuel.
Proof. apply (proj1 (parse_enough_fuel _)). unfold budget. lia. Qed.


Lemma pmap_more_fuel {A B} (g : A -> B) (x y : pres A) :
  (x <> PFuel -> y = x) -> pmap g x <> PFuel -> pmap g y = pmap g x.
Proof.
  intros H Hx. rewrite H; [reflexivity|]. intros ->. now apply Hx.
Qed.

(** A run that did not stop for lack of fuel is unchanged by more fuel. *)
Lemma parse_more_fuel fuel :
  (forall s, parse_value fuel s <> PFuel -> parse_value (S fuel) s = parse_value fuel s)
  /\ (forall s, parse_elements fuel s <> PFuel ->
                parse_elements (S fuel) s = parse_elements fuel s)
  /\ (forall s, parse_members fuel s <> PFuel ->
                parse_members (S fuel) s = parse_members fuel s).
Proof.
  induction fuel as [|f (IHv & IHe & IHm)];
    [repeat split; intros s H; now contradiction H|].
  repeat split.
  - intros s. remember (S f) as f1 eqn:Ef1.
    change (parse_value (S f1) s) with
      (match skip_ws s with
       | [] => PErr
       | c :: r =>
         if c =? 123 then
           match expect 125 (skip_ws r) with
           | Some r' => POk (JObject []) r'
           | None => pmap JObject (parse_members f1 r)
           end
         else if c =? 91 then
           match expect 93 (skip_ws r) with
           | Some r' => POk (JArray []) r'
           | None => pmap JArray (parse_elements f1 r)
           end
         else if c =? 34 then pmap JString (of_option (parse_chars r))
         else if (c =? 45) || is_digit c then
           pmap JNumber (of_option (parse_number (c :: r)))
         else of_option (parse_name (c :: r))
       end).
    subst f1. cbn [parse_value].
    destruct (skip_ws s) as [|c r]; [reflexivity|].
    destruct (c =? 123).
    { destruct (expect 125 (skip_ws r)); [reflexivity|].
      apply pmap_more_fuel. apply IHm. }
    destruct (c =? 91).
    { destruct (expect 93 (skip_ws r)); [reflexivity|].
      apply pmap_more_fuel. apply IHe. }
    reflexivity.
  - intros s. remember (S f) as f1 eqn:Ef1.
    change (parse_elements (S f1) s) with
      (match parse_value f1 s with
       | POk v r =>
         match expect 44 (skip_ws r), expect 93 (skip_ws r) with
         | Some r', _ => pmap (cons v) (parse_elements f1 r')
         | None, Some r' => POk [v] r'
         | None, None => PErr
         end
       | PErr => PErr
       | PFuel => PFuel
       end).
    subst f1. cbn [parse_elements].
    destruct (parse_value f s) as [v r| |] eqn:E.
    + rewrite IHv, E by congruence.
      destruct (expect 44 (skip_ws r)); [|reflexivity].
      apply pmap_more_fuel. apply IHe.
    + rewrite IHv, E by congruence. reflexivity.
    + intros H. now contradiction H.
  - intros s. remember (S f) as f1 eqn:Ef1.
    change (parse_members (S f1) s) with
      (match expect 34 (skip_ws s) with
       | None => PErr
       | Some r =>
         match parse_chars r with
         | None => PErr
         | Some (k, r1) =>
           match expect 58 (skip_ws r1) with
           | None => PErr
           | Some r2 =>
             match parse_value f1 r2 with
             | POk v r3 =>
               match expect 44 (skip_ws r3), expect 125 (skip_ws r3) with
               | Some r4, _ => pmap (cons (k, v)) (parse_members f1 r4)
               | None, Some r4 => POk [(k, v)] r4
               | None, None => PErr
               end
             | PErr => PErr
             | PFuel => PFuel
             end
           end
         end
       end).
    subst f1. cbn [parse_members].
    destruct (expect 34 (skip_ws s)) as [r|]; [|reflexivity].
    destruct (parse_chars r) as [[k r1]|]; [|reflexivity].
    destruct (expect 58 (skip_ws r1)) as [r2|]; [|reflexivity].
    destruct (parse_value f r2) as [v r3| |] eqn:E.
    + rewrite IHv, E by congruence.
      destruct (expect 44 (skip_ws r3)); [|reflexivity].
      apply pmap_more_fuel. apply IHm.
    + rewrite IHv, E by congruence. reflexivity.
    + intros H. now contradiction H.
Qed.

(** The value [JSON.parse] finds does not depend on the fuel, once there
    is as much as [budget] gives. *)
Lemma parse_value_stable text fuel :
  (budget text <= fuel)%nat -> parse_value fuel text = parse_value (budget text) text.
Proof.
  induction 1 as [|f Hle IH]; [reflexivity|].
  rewrite <- IH. apply (proj1 (parse_more_fuel f)).
  rewrite IH. apply parse_value_budget.
Qed.

(** *** Statements *)

Lemma jsstring_eqb_eq a b : jsstring_eqb a b = true <-> a = b.
Proof.
  revert b; induction a as [|x a IH]; intros [|y b]; simpl; split; try congruence.
  - intros H. apply andb_prop in H as [H1 H2]. apply N.eqb_eq in H1. apply IH in H2. congruence.
  - intros H. injection H as -> ->. rewrite N.eqb_refl. simpl. now apply IH.
Qed.

Lemma parse_sentinel : Json.parse (u16 "[DONE]") = None.
Proof. reflexivity. Qed.

Lemma bind_ret {A B} (a : A) (k : A -> M B) st : bind (ret a) k st = k a st.
Proof. unfold bind, ret. destruct (k a st) as [[c st'] out]. reflexivity. Qed.

Lemma bind_lift_inl {A B} (a : A) (k : A -> M B) st : bind (lift (inl a)) k st = k a st.
Proof. apply bind_ret. Qed.

Lemma bind_lift_inr {A B} e (k : A -> M B) st :
  bind (lift (inr e)) k st = (Throw e, st, []).
Proof. reflexivity. Qed.

Lemma bind_read {A B} (var : StreamState -> A) (k : A -> M B) st :
  bind (read var) k st = k (var st) st.
Proof. unfold bind, read. destruct (k (var st) st) as [[c st'] out]. reflexivity. Qed.

Lemma bind_skip {B} (k : unit -> M B) st : bind skip k st = k tt st.
Proof. apply bind_ret. Qed.

Lemma bind_set_messageId {B} v (k : unit -> M B) st :
  bind (set_messageId v) k st = k tt (mkState (result st) v).
Proof.
  unfold bind, set_messageId. destruct (k tt _) as [[c st'] out]. reflexivity.
Qed.

Lemma bind_set_result {B} s (k : unit -> M B) st :
  bind (set_result s) k st = k tt (mkState s (messageId st)).
Proof.
  unfold bind, set_result. destruct (k tt _) as [[c st'] out]. reflexivity.
Qed.

Lemma bind_assoc {A B C} (m : M A) (k : A -> M B) (h : B -> M C) st :
  bind (bind m k) h st = bind m (fun a => bind (k a) h) st.
Proof.
  unfold bind. destruct (m st) as [[[a| |e] st1] out1]; try reflexivity.
  destruct (k a st1) as [[[b| |e] st2] out2]; try reflexivity.
  destruct (h b st2) as [[c st3] out3]. now rewrite app_assoc.
Qed.

Lemma get_nullish v k e : get v k = inr e -> forall k', get v k' = inr TypeError.
Proof. destruct v; simpl; try discriminate; try reflexivity; destruct k; discriminate. Qed.

Lemma get_defined v k x : get v k = inl x -> forall k', exists y, get v k' = inl y.
Proof.
  destruct v; simpl; try discriminate; intros _ k'; try (eexists; reflexivity);
    destruct k'; eexists; reflexivity.
Qed.

(** Running a block: each leading statement is replaced by its effect. *)
Ltac run_binds :=
  repeat first
    [ rewrite bind_assoc | rewrite bind_lift_inl | rewrite bind_lift_inr
    | rewrite bind_read | rewrite bind_skip | rewrite bind_ret
    | rewrite bind_set_messageId | rewrite bind_set_result ].

Ltac finished := eexists; split; [reflexivity | congruence].

(** The handler leaves the state and emits the events that [step] gives,
    and it never throws: every exception is raised inside the [try]. *)
Lemma onMessage_step m st :
  exists c, onMessage m st = (c, fst (step m st), snd (step m st))
            /\ forall e, c <> Throw e.
Proof.
  unfold onMessage, step, frame_action, record_id, frame_id.
  destruct (jsstring_eqb m (u16 "[DONE]")) eqn:Hs.
  { apply jsstring_eqb_eq in Hs. subst m. rewrite parse_sentinel.
    destruct (truthy (messageId st)); finished. }
  unfold try_catch, JSON_parse.
  destruct (Json.parse m) as [data|].
  2: { rewrite bind_lift_inr. destruct (truthy (messageId st)); finished. }
  rewrite bind_lift_inl, bind_read.
  destruct (get data Kchoices) as [choices|e] eqn:Hc.
  2: { (* data is null: the first property access throws *)
    unfold first_choice. rewrite Hc, (get_nullish _ _ _ Hc Kid).
    destruct (truthy (messageId st)); cbn [negb]; run_binds; finished. }
  destruct (get_defined _ _ _ Hc Kid) as [id Hid]. rewrite Hid.
  set (st1 := if truthy (messageId st) then st
              else match (if truthy id then Some id else None) with
                   | Some id => {| result := result st; messageId := id |}
                   | None => st
                   end).
  assert (Hr : result st1 = result st).
  { unfold st1. destruct (truthy (messageId st)), (truthy id); reflexivity. }
  assert (Hblock : forall B (k : unit -> M B),
    bind (if negb (truthy (messageId st))
          then bind (lift (inl id))
                    (fun id => if truthy id then set_messageId id else skip)
          else skip) k st = k tt st1).
  { intros B k. unfold st1.
    destruct (truthy (messageId st)); cbn [negb]; run_binds; [reflexivity|].
    destruct (truthy id); run_binds; reflexivity. }
  rewrite Hblock. clearbody st1. clear Hblock.
  rewrite bind_lift_inl. unfold first_choice. rewrite Hc.
  destruct (truthy choices) eqn:Ht.
  2: { run_binds. finished. }
  assert (Hn : exists x, get choices Kcontent = inl x).
  { destruct choices; try discriminate; eexists; reflexivity. }
  destruct Hn as [x0 Hn].
  destruct (get_defined _ _ _ Hn Klength) as [len Hlen].
  destruct (get_defined _ _ _ Hn K0) as [choice Hch].
  rewrite Hlen, Hch. run_binds.
  destruct (greater_than_zero len) as [[|]|e].
  2: { run_binds. finished. }
  2: { (* the comparison throws *) run_binds. finished. }
  run_binds. unfold destructure, delta_content.
  destruct (get choice Kfinish_reason) as [fr|e] eqn:Hfr.
  2: { rewrite (get_nullish _ _ _ Hfr Kdelta). run_binds. finished. }
  destruct (get_defined _ _ _ Hfr Kdelta) as [delta Hd]. rewrite Hd.
  run_binds.
  destruct (strict_eq_string fr (u16 "stop")).
  { finished. }
  destruct (truthy (or_else (optional_get delta Kcontent) (JString []))).
  2: { finished. }
  rewrite bind_read.
  destruct (toString (or_else (optional_get delta Kcontent) (JString []))) as [appended|e].
  2: { (* the concatenation throws before the assignment *) run_binds. finished. }
  run_binds. cbn [result messageId]. rewrite Hr. finished.
Qed.

(** *** One frame *)

Lemma deliver_step f rest st :
  deliver (f :: rest) st =
  (fst (deliver rest (fst (step f st))),
   snd (step f st) ++ snd (deliver rest (fst (step f st)))).
Proof.
  cbn [deliver]. destruct (onMessage_step f st) as (c & -> & _).
  destruct (deliver rest (fst (step f st))) as [st2 out2]. reflexivity.
Qed.

Lemma deliver_app a : forall b st,
  deliver (a ++ b) st =
  (fst (deliver b (fst (deliver a st))),
   snd (deliver a st) ++ snd (deliver b (fst (deliver a st)))).
Proof.
  induction a as [|f a IH]; intros b st.
  - cbn. now destruct (deliver b st).
  - rewrite <- app_comm_cons, !deliver_step, IH. cbn [fst snd].
    now rewrite app_assoc.
Qed.

Lemma terminal_frame_action m :
  terminal_frame m = true <-> frame_action m = Finish.
Proof.
  unfold terminal_frame, frame_action, stop_frame.
  destruct (jsstring_eqb m (u16 "[DONE]")); cbn [orb]; [tauto|].
  destruct (Json.parse m) as [data|]; [|split; discriminate].
  destruct (first_choice data) as [choice|]; [|split; discriminate].
  destruct (get choice Kfinish_reason) as [fr|]; [|split; discriminate].
  destruct (strict_eq_string fr (u16 "stop")); [tauto|].
  destruct (truthy (delta_content choice)); split; discriminate.
Qed.

(** The cases of [step]: the frame ends the stream, appends a delta that
    converts, holds a delta that does not convert, or is ignored. *)
Ltac step_cases m :=
  unfold step;
  let c := fresh "content" in
  let E := fresh "Eaction" in
  destruct (frame_action m) as [|c|] eqn:E;
  [ | let t := fresh "appended" in
      let e := fresh "e" in
      let Et := fresh "Etext" in
      destruct (toString c) as [t|e] eqn:Et | ].

Lemma record_id_result m st : result (record_id m st) = result st.
Proof.
  unfold record_id. destruct (truthy (messageId st)); [reflexivity|].
  destruct (frame_id m); reflexivity.
Qed.

Lemma step_messageId m st :
  messageId (fst (step m st)) = messageId (record_id m st).
Proof. step_cases m; reflexivity. Qed.

Lemma step_terminal m st :
  terminal_frame m = true -> step m st = (record_id m st, [done]).
Proof. intros H. apply terminal_frame_action in H. unfold step. now rewrite H. Qed.

Lemma step_nonterminal m st :
  terminal_frame m = false ->
  snd (step m st) = []
  \/ exists text id, snd (step m st) = [answer text id id].
Proof.
  intros H. step_cases m.
  - apply terminal_frame_action in Eaction. congruence.
  - right. eexists _, _. reflexivity.
  - now left.
  - now left.
Qed.

Lemma step_result_prefix m st : prefix_of (result st) (result (fst (step m st))).
Proof.
  step_cases m; cbn [fst result];
    try (exists []; now rewrite record_id_result, app_nil_r).
  eexists. reflexivity.
Qed.

Lemma step_texts m st :
  answer_texts (snd (step m st)) = []
  \/ answer_texts (snd (step m st)) = [result (fst (step m st))].
Proof. step_cases m; cbn; auto. Qed.

Lemma step_carries m st :
  Forall (carries (messageId (fst (step m st)))) (snd (step m st)).
Proof.
  step_cases m; cbn; repeat constructor.
Qed.

Lemma step_no_error m st : existsb is_error (snd (step m st)) = false.
Proof. step_cases m; reflexivity. Qed.

Lemma frame_id_truthy m id : frame_id m = Some id -> truthy id = true.
Proof.
  unfold frame_id. destruct (Json.parse m) as [data|]; [|discriminate].
  destruct (get data Kid) as [x|]; [|discriminate].
  destruct (truthy x) eqn:E; [|discriminate]. now intros [= <-].
Qed.

(** Write-once: a recorded identifier stays. *)
Lemma step_messageId_kept m st :
  truthy (messageId st) = true -> messageId (fst (step m st)) = messageId st.
Proof. intros H. rewrite step_messageId. unfold record_id. now rewrite H. Qed.

Lemma step_messageId_none m st :
  frame_id m = None -> messageId (fst (step m st)) = messageId st.
Proof.
  intros H. rewrite step_messageId. unfold record_id. rewrite H.
  now destruct (truthy (messageId st)).
Qed.

Lemma step_messageId_set m st id :
  truthy (messageId st) = false -> frame_id m = Some id ->
  messageId (fst (step m st)) = id.
Proof. intros H1 H2. rewrite step_messageId. unfold record_id. now rewrite H1, H2. Qed.

(** *** A sequence of frames *)

Lemma prefix_of_refl a : prefix_of a a.
Proof. exists []. now rewrite app_nil_r. Qed.

Lemma prefix_of_trans a b c : prefix_of a b -> prefix_of b c -> prefix_of a c.
Proof. intros [k ->] [l ->]. exists (k ++ l). now rewrite app_assoc. Qed.

Lemma answer_texts_app a b : answer_texts (a ++ b) = answer_texts a ++ answer_texts b.
Proof.
  induction a as [|e a IH]; [reflexivity|].
  destruct e; cbn; now rewrite IH.
Qed.

Lemma deliver_result_prefix fs : forall st,
  prefix_of (result st) (result (fst (deliver fs st))).
Proof.
  induction fs as [|f fs IH]; intros st.
  - apply prefix_of_refl.
  - rewrite deliver_step. cbn [fst].
    eapply prefix_of_trans; [apply step_result_prefix | apply IH].
Qed.

Lemma deliver_texts_sorted fs : forall st,
  Forall (prefix_of (result st)) (answer_texts (snd (deliver fs st)))
  /\ Sorted prefix_of (answer_texts (snd (deliver fs st))).
Proof.
  induction fs as [|f fs IH]; intros st.
  - cbn. split; constructor.
  - rewrite deliver_step. cbn [snd]. rewrite answer_texts_app.
    destruct (IH (fst (step f st))) as [Hall Hsorted].
    pose proof (step_result_prefix f st) as Hp.
    assert (Hall' : Forall (prefix_of (result st))
                      (answer_texts (snd (deliver fs (fst (step f st)))))).
    { eapply Forall_impl; [|exact Hall]. intros t. now apply prefix_of_trans. }
    destruct (step_texts f st) as [-> | ->]; cbn [app].
    + split; assumption.
    + split.
      * constructor; assumption.
      * constructor; [assumption|].
        destruct Hall; constructor; assumption.
Qed.

Lemma deliver_no_error fs : forall st, existsb is_error (snd (deliver fs st)) = false.
Proof.
  induction fs as [|f fs IH]; intros st; [reflexivity|].
  rewrite deliver_step. cbn [snd]. now rewrite existsb_app, step_no_error, IH.
Qed.

Lemma terminal_count_app a b :
  terminal_count (a ++ b) = (terminal_count a + terminal_count b)%nat.
Proof. unfold terminal_count. now rewrite filter_app, length_app. Qed.

Lemma step_terminal_count m st :
  terminal_count (snd (step m st)) = if terminal_frame m then 1%nat else 0%nat.
Proof.
  destruct (terminal_frame m) eqn:E.
  - now rewrite step_terminal.
  - destruct (step_nonterminal m st E) as [-> | (t & i & ->)]; reflexivity.
Qed.

(** Every frame that ends the stream yields its own Done, wherever it
    stands among the frames. *)
Lemma deliver_terminal_count fs : forall st,
  terminal_count (snd (deliver fs st)) = List.length (filter terminal_frame fs).
Proof.
  induction fs as [|f fs IH]; intros st; [reflexivity|].
  rewrite deliver_step. cbn [snd filter].
  rewrite terminal_count_app, step_terminal_count, IH.
  destruct (terminal_frame f); reflexivity.
Qed.

Lemma deliver_nonterminal fs : forall st,
  Forall (fun f => terminal_frame f = false) fs ->
  forallb is_answer (snd (deliver fs st)) = true.
Proof.
  induction fs as [|f fs IH]; intros st H; [reflexivity|].
  inversion H as [|? ? Hf Hfs]; subst.
  rewrite deliver_step. cbn [snd]. rewrite forallb_app, IH by assumption.
  destruct (step_nonterminal f st Hf) as [-> | (t & i & ->)]; reflexivity.
Qed.

Lemma deliver_messageId_kept fs : forall st,
  truthy (messageId st) = true ->
  messageId (fst (deliver fs st)) = messageId st
  /\ Forall (carries (messageId st)) (snd (deliver fs st)).
Proof.
  induction fs as [|f fs IH]; intros st H.
  - cbn. split; [reflexivity | constructor].
  - rewrite deliver_step. cbn [fst snd].
    pose proof (step_messageId_kept f st H) as Hk.
    destruct (IH (fst (step f st))) as [H1 H2]; [now rewrite Hk|].
    rewrite Hk in H1, H2. split; [assumption|].
    apply Forall_app. split; [|assumption].
    rewrite <- Hk. apply step_carries.
Qed.

Lemma deliver_messageId_none fs : forall st,
  Forall (fun m => frame_id m = None) fs ->
  messageId (fst (deliver fs st)) = messageId st
  /\ Forall (carries (messageId st)) (snd (deliver fs st)).
Proof.
  induction fs as [|f fs IH]; intros st H.
  - cbn. split; [reflexivity | constructor].
  - inversion H as [|? ? Hf Hfs]; subst.
    rewrite deliver_step. cbn [fst snd].
    pose proof (step_messageId_none f st Hf) as Hk.
    destruct (IH (fst (step f st)) Hfs) as [H1 H2].
    rewrite Hk in H1, H2. split; [assumption|].
    apply Forall_app. split; [|assumption].
    rewrite <- Hk. apply step_carries.
Qed.

Lemma onMessage_after m st : after (onMessage m st) = fst (step m st).
Proof. destruct (onMessage_step m st) as (c & -> & _). reflexivity. Qed.

Lemma onMessage_emitted m st : emitted (onMessage m st) = snd (step m st).
Proof. destruct (onMessage_step m st) as (c & -> & _). reflexivity. Qed.

(** With a callback that returns, the handler never throws. *)
Lemma onMessage_completes m st e : fst (fst (onMessage m st)) <> Throw e.
Proof. destruct (onMessage_step m st) as (c & -> & H). apply H. Qed.

Lemma parsed_not_sentinel m data :
  Json.parse m = Some data -> jsstring_eqb m (u16 "[DONE]") = false.
Proof.
  intros H. destruct (jsstring_eqb m (u16 "[DONE]")) eqn:E; [|reflexivity].
  apply jsstring_eqb_eq in E. subst m. rewrite parse_sentinel in H. discriminate.
Qed.

Lemma deliver_done_of_terminal fs : forall st,
  Exists (fun t => terminal_frame t = true) fs -> In done (snd (deliver fs st)).
Proof.
  induction fs as [|f fs IH]; intros st H; inversion H as [? ? Hf|? ? Hfs]; subst;
    rewrite deliver_step; cbn [snd]; apply in_or_app.
  - left. rewrite step_terminal by assumption. now left.
  - right. now apply IH.
Qed.

Lemma terminal_is_last (A L a b : list Event) e :
  forallb is_answer A = true -> (List.length L <= 1)%nat ->
  A ++ L = a ++ e :: b -> is_terminal e = true -> b = [].
Proof.
  revert a. induction A as [|x A IH]; intros a HA HL Heq He.
  - cbn in Heq. subst L. rewrite length_app in HL. cbn in HL.
    destruct b; [reflexivity | cbn in HL; lia].
  - cbn in HA. apply andb_prop in HA as [Hx HA].
    destruct a as [|y a]; cbn in Heq; injection Heq as -> Heq.
    + destruct e; discriminate.
    + now apply (IH a).
Qed.

Lemma filter_none {A} (p : A -> bool) l :
  Forall (fun x => p x = false) l -> filter p l = [].
Proof. induction 1 as [|x l Hx _ IH]; [reflexivity|]. cbn. now rewrite Hx. Qed.

Lemma strict_eq_string_spec v s : strict_eq_string v s = true <-> v = JString s.
Proof.
  destruct v; cbn; try (split; congruence).
  rewrite jsstring_eqb_eq. split; congruence.
Qed.

(** For a string, truthy means not empty. *)
Lemma truthy_string s : truthy (JString s) = true <-> s <> [].
Proof. destruct s; cbn; split; congruence. Qed.

(** A choice without a delta, or with a delta without content, has the
    empty string as its delta text. *)
Lemma delta_content_absent choice delta :
  get choice Kdelta = inl delta ->
  delta = JUndefined \/ get delta Kcontent = inl JUndefined ->
  delta_content choice = JString [].
Proof.
  intros Hd H. unfold delta_content. rewrite Hd.
  destruct H as [-> | H]; [reflexivity|].
  unfold or_else, optional_get. rewrite H. now destruct delta.
Qed.

(** The first choice of a payload of the shape the protocol has: an
    object whose [choices] member is a non-empty array. *)
Lemma first_choice_of_array data choice rest :
  get data Kchoices = inl (JArray (choice :: rest)) ->
  first_choice data = Some choice.
Proof. intros H. unfold first_choice. rewrite H. reflexivity. Qed.

Lemma first_choice_of_empty data :
  get data Kchoices = inl (JArray []) -> first_choice data = None.
Proof. intros H. unfold first_choice. rewrite H. reflexivity. Qed.

(** Successive texts extend one another, hence so do any two. *)
Lemma deliver_texts_strongly_sorted fs st :
  StronglySorted prefix_of (answer_texts (snd (deliver fs st))).
Proof.
  apply Sorted_StronglySorted; [|apply deliver_texts_sorted].
  intros a b c. apply prefix_of_trans.
Qed.

(** *** The claims *)

(** C1, as the code has it.  The handler keeps no flag that closes the call:
    every sentinel or stop frame handed to it emits its own Done, and
    frames after it are handled like any other
    ([deliver_terminal_count]).  When no frame follows the first sentinel
    or stop frame, that is, when no frame but the last one delivered ends
    the stream, a call emits at most one terminal event and no event after
    it. *)
Theorem done_last_when_terminal_frame_last self params :
  Forall (fun f => terminal_frame f = false)
         (removelast (frames (fetchSSE (request self params)))) ->
  (terminal_count (events (generateAnswer self params)) <= 1)%nat
  /\ forall a e b, events (generateAnswer self params) = a ++ e :: b ->
                   is_terminal e = true -> b = [].
Proof.
  unfold generateAnswer. cbn [events].
  generalize (frames (fetchSSE (request self params))). intros fs.
  destruct fs as [|x l _] using rev_ind.
  - intros _. split; [cbn; lia|]. intros a e b H. destruct a; discriminate.
  - rewrite removelast_last. intros Hpre.
    rewrite deliver_app. cbn [snd].
    set (st1 := fst (deliver l initial)).
    assert (HL : snd (deliver [x] st1) = snd (step x st1)).
    { rewrite deliver_step. cbn. apply app_nil_r. }
    rewrite HL. split.
    + rewrite terminal_count_app, step_terminal_count.
      unfold st1. rewrite deliver_terminal_count, filter_none by assumption.
      destruct (terminal_frame x); cbn; lia.
    + intros a e b. apply terminal_is_last.
      * now apply deliver_nonterminal.
      * destruct (terminal_frame x) eqn:E.
        -- rewrite step_terminal by assumption. cbn. lia.
        -- destruct (step_nonterminal x st1 E) as [-> | (t & i & ->)]; cbn; lia.
Qed.

(** C2, as the code has it.  [generateAnswer] never emits an Error event.  When
    the transport reports an error the promise it returns is rejected with
    that error, and otherwise it resolves; the terminal events of a call
    are the Done events of the sentinel and stop frames delivered, so a
    stream that ends without such a frame leaves the call without a
    terminal event. *)
Theorem no_error_event_transport_error_rejects self params :
  existsb is_error (events (generateAnswer self params)) = false
  /\ promise (generateAnswer self params)
     = match settles (fetchSSE (request self params)) with
       | rejected reason => rejected reason
       | resolved _ => resolved tt
       end
  /\ terminal_count (events (generateAnswer self params))
     = List.length (filter terminal_frame (frames (fetchSSE (request self params)))).
Proof.
  unfold generateAnswer. cbn [events promise]. repeat split.
  - apply deliver_no_error.
  - apply deliver_terminal_count.
Qed.

(** C4.  Within one call the texts of successive Answer events extend
    one another: each is a prefix of the next. *)
Theorem answer_texts_prefix_extending self params :
  Sorted prefix_of (answer_texts (events (generateAnswer self params))).
Proof. unfold generateAnswer. cbn [events]. apply deliver_texts_sorted. Qed.

(** C5.  A frame that is not the sentinel and does not parse as JSON is
    skipped: the handler returns without an event and without touching the
    state, the call emits what it would emit without that frame, in
    particular the Done of a later sentinel or stop frame, and no Error
    event. *)
Theorem unparsable_frame_skipped self params pre m post :
  frames (fetchSSE (request self params)) = pre ++ m :: post ->
  m <> u16 "[DONE]" ->
  Json.parse m = None ->
  (forall st, onMessage m st = (Return, st, []))
  /\ events (generateAnswer self params) = snd (deliver (pre ++ post) initial)
  /\ existsb is_error (events (generateAnswer self params)) = false
  /\ (Exists (fun t => terminal_frame t = true) post ->
      In done (events (generateAnswer self params))).
Proof.
  intros Hfs Hne Hp.
  assert (Hs : jsstring_eqb m (u16 "[DONE]") = false).
  { destruct (jsstring_eqb m (u16 "[DONE]")) eqn:E; [|reflexivity].
    now apply jsstring_eqb_eq in E. }
  assert (Hstep : forall st, step m st = (st, [])).
  { intros st. unfold step, frame_action, record_id, frame_id. rewrite Hs, Hp.
    now destruct (truthy (messageId st)). }
  assert (Hev : events (generateAnswer self params) = snd (deliver (pre ++ post) initial)).
  { unfold generateAnswer. cbn [events]. rewrite Hfs, !deliver_app. cbn [snd].
    now rewrite deliver_step, Hstep. }
  repeat split.
  - intros st. unfold onMessage. rewrite Hs. unfold try_catch, JSON_parse.
    rewrite Hp. reflexivity.
  - exact Hev.
  - rewrite Hev. apply deliver_no_error.
  - intros Hex. rewrite Hev, deliver_app. cbn [snd]. apply in_or_app. right.
    now apply deliver_done_of_terminal.
Qed.

(** C6.  A frame whose first choice has the finish reason stop makes the
    handler emit Done and nothing else, whatever its delta holds, so in
    particular no Answer with an empty text when the delta has no content;
    the accumulated text is left as it was. *)
Theorem stop_frame_emits_done_only m st data choice :
  Json.parse m = Some data ->
  first_choice data = Some choice ->
  get choice Kfinish_reason = inl (JString (u16 "stop")) ->
  emitted (onMessage m st) = [done]
  /\ result (after (onMessage m st)) = result st.
Proof.
  intros Hp Hc Hf.
  assert (Ht : terminal_frame m = true).
  { unfold terminal_frame, stop_frame. rewrite Hp, Hc, Hf. apply orb_true_r. }
  rewrite onMessage_emitted, onMessage_after, step_terminal by assumption.
  split; [reflexivity | apply record_id_result].
Qed.

(** C7.  The message identifier is written once.  A frame carries an
    identifier when its payload parses and has a truthy [id] (the test the
    handler makes; for a string: not empty).  If [f] is the first frame
    that carries one, [id], then whatever frames follow, the identifier of
    the call is [id] at the end, every Answer event from [f] on has [id] as
    message and as conversation identifier, and those before have the
    empty string. *)
Theorem messageId_write_once self params pre f post id :
  frames (fetchSSE (request self params)) = pre ++ f :: post ->
  Forall (fun m => frame_id m = None) pre ->
  frame_id f = Some id ->
  messageId (fst (deliver (pre ++ f :: post) initial)) = id
  /\ exists later,
       events (generateAnswer self params) = snd (deliver pre initial) ++ later
       /\ Forall (carries (JString [])) (snd (deliver pre initial))
       /\ Forall (carries id) later.
Proof.
  intros Hfs Hpre Hf.
  destruct (deliver_messageId_none pre initial Hpre) as [Hm0 Hc0].
  cbn [initial messageId] in Hm0, Hc0.
  set (st0 := fst (deliver pre initial)) in *.
  assert (Hset : messageId (fst (step f st0)) = id).
  { apply step_messageId_set; [now rewrite Hm0 | assumption]. }
  pose proof (frame_id_truthy _ _ Hf) as Hid.
  destruct (deliver_messageId_kept post (fst (step f st0))) as [Hm1 Hc1];
    [now rewrite Hset|].
  rewrite Hset in Hm1, Hc1.
  rewrite deliver_app, deliver_step. cbn [fst snd]. fold st0.
  split; [exact Hm1|].
  exists (snd (step f st0) ++ snd (deliver post (fst (step f st0)))).
  repeat split.
  - unfold generateAnswer. cbn [events].
    now rewrite Hfs, deliver_app, deliver_step.
  - exact Hc0.
  - apply Forall_app. split; [|exact Hc1]. rewrite <- Hset. apply step_carries.
Qed.

(** C8, as the code has it.  For a frame that parses and has a first
    choice whose finish reason is not stop, the handler tests the content
    [delta?.content || ''] for truthiness, not its text for emptiness, and
    it emits an Answer exactly when the content is truthy and the
    concatenation [result += content] can convert it to a string; the
    Answer holds the accumulated text with that string appended.  In every
    other case nothing is emitted and the accumulated text is unchanged:
    when the content is falsy, as for an absent delta or a delta without
    content, and when it is truthy but the conversion throws (the TypeError
    is caught).  For a string, as the protocol has the content, this is
    the claim: an Answer exactly when the string is not empty. *)
Theorem answer_iff_content_truthy_and_convertible m st data choice :
  Json.parse m = Some data ->
  first_choice data = Some choice ->
  get choice Kfinish_reason <> inl (JString (u16 "stop")) ->
  (emitted (onMessage m st), result (after (onMessage m st)))
  = (if truthy (delta_content choice)
     then match toString (delta_content choice) with
          | inl appended =>
            ([answer (result st ++ appended)
                     (messageId (after (onMessage m st)))
                     (messageId (after (onMessage m st)))],
             result st ++ appended)
          | inr _ => ([], result st)
          end
     else ([], result st))
  /\ (forall s, delta_content choice = JString s ->
        emitted (onMessage m st)
        = match s with
          | [] => []
          | _ :: _ => [answer (result st ++ s)
                              (messageId (after (onMessage m st)))
                              (messageId (after (onMessage m st)))]
          end)
  /\ (forall delta, get choice Kdelta = inl delta ->
        delta = JUndefined \/ get delta Kcontent = inl JUndefined ->
        emitted (onMessage m st) = [] /\ result (after (onMessage m st)) = result st).
Proof.
  intros Hp Hc Hf.
  assert (Hmain :
    (emitted (onMessage m st), result (after (onMessage m st)))
    = (if truthy (delta_content choice)
       then match toString (delta_content choice) with
            | inl appended =>
              ([answer (result st ++ appended)
                       (messageId (after (onMessage m st)))
                       (messageId (after (onMessage m st)))],
               result st ++ appended)
            | inr _ => ([], result st)
            end
       else ([], result st))).
  { rewrite onMessage_emitted, onMessage_after.
    unfold step, frame_action.
    rewrite (parsed_not_sentinel _ _ Hp), Hp, Hc.
    destruct (get choice Kfinish_reason) as [fr|e] eqn:Hfr.
    - destruct (strict_eq_string fr (u16 "stop")) eqn:Hs.
      { apply strict_eq_string_spec in Hs. subst fr. now contradiction Hf. }
      destruct (truthy (delta_content choice)); cbn [fst snd result messageId].
      + destruct (toString (delta_content choice)); cbn [fst snd result messageId];
          [reflexivity | now rewrite record_id_result].
      + now rewrite record_id_result.
    - (* the choice is null: destructuring throws, nothing is emitted *)
      unfold delta_content. rewrite (get_nullish _ _ _ Hfr Kdelta).
      cbn [truthy fst snd]. now rewrite record_id_result. }
  split; [exact Hmain|]. split.
  - intros s Hs. rewrite Hs in Hmain. cbn [toString] in Hmain.
    destruct s as [|c s]; cbn [truthy] in Hmain; now injection Hmain.
  - intros delta Hd Habsent.
    rewrite (delta_content_absent _ _ Hd Habsent) in Hmain. cbn [truthy] in Hmain.
    injection Hmain as -> ->. now split.
Qed.

(** C9.  A provider built without a base URL, or with the empty string,
    has the base URL https://api.openai.com, and [generateAnswer] hands
    [fetchSSE] a POST request to the base URL followed by
    /v1/chat/completions. *)
Theorem default_base_url_and_endpoint token model params :
  apiBaseUrl (new_OpenAIProvider token model None) = u16 "https://api.openai.com"
  /\ apiBaseUrl (new_OpenAIProvider token model (Some [])) = u16 "https://api.openai.com"
  /\ url (request (new_OpenAIProvider token model None) params)
     = u16 "https://api.openai.com/v1/chat/completions"
  /\ url (request (new_OpenAIProvider token model (Some [])) params)
     = u16 "https://api.openai.com/v1/chat/completions"
  /\ forall self,
       url (request self params) = apiBaseUrl self ++ u16 "/v1/chat/completions"
       /\ method (request self params) = u16 "POST"
       /\ events (generateAnswer self params)
          = snd (deliver (frames (fetchSSE (request self params))) initial).
Proof. repeat split. Qed.

(** C10.  As long as no frame delivered has carried an identifier (see
    C7), the Answer events emitted have the empty string as message and as
    conversation identifier. *)
Theorem empty_id_before_first_id self params pre post :
  frames (fetchSSE (request self params)) = pre ++ post ->
  Forall (fun m => frame_id m = None) pre ->
  exists later,
    events (generateAnswer self params) = snd (deliver pre initial) ++ later
    /\ Forall (carries (JString [])) (snd (deliver pre initial)).
Proof.
  intros Hfs Hpre.
  exists (snd (deliver post (fst (deliver pre initial)))). split.
  - unfold generateAnswer. cbn [events]. now rewrite Hfs, deliver_app.
  - apply (deliver_messageId_none pre initial Hpre).
Qed.

(** *** QuoteJSONString and JSON.parse *)

Lemma hex_val_hex_digit n : n < 16 -> hex_val (hex_digit n) = Some n.
Proof.
  intros H. destruct n as [|p]; [reflexivity|].
  do 4 (destruct p as [p|p|]; try reflexivity); exfalso; lia.
Qed.

Lemma hex4_unicode_escape c :
  c < 65536 ->
  hex4 (hex_digit (c / 4096 mod 16)) (hex_digit (c / 256 mod 16))
       (hex_digit (c / 16 mod 16)) (hex_digit (c mod 16)) = Some c.
Proof.
  intros H. unfold hex4.
  rewrite !hex_val_hex_digit by (apply N.mod_lt; discriminate).
  f_equal.
  replace (c / 256) with (c / 16 / 16) by (rewrite N.Div0.div_div; reflexivity || discriminate).
  replace (c / 4096) with (c / 16 / 16 / 16)
    by (rewrite !N.Div0.div_div; reflexivity || discriminate).
  pose proof (N.div_mod c 16) as H0.
  pose proof (N.div_mod (c / 16) 16) as H1.
  pose proof (N.div_mod (c / 16 / 16) 16) as H2.
  pose proof (N.mod_lt c 16) as L0.
  pose proof (N.mod_lt (c / 16) 16) as L1.
  pose proof (N.mod_lt (c / 16 / 16) 16) as L2.
  assert (L3 : c / 16 / 16 / 16 < 16).
  { apply N.Div0.div_lt_upper_bound. apply N.Div0.div_lt_upper_bound.
    apply N.Div0.div_lt_upper_bound. lia. }
  rewrite (N.mod_small _ _ L3).
  generalize dependent (c / 16 / 16 / 16). generalize dependent (c / 16 / 16 mod 16).
  generalize dependent (c / 16 / 16). generalize dependent (c / 16 mod 16).
  generalize dependent (c / 16). generalize dependent (c mod 16).
  intros. lia.
Qed.

Lemma parse_chars_unicode_escape c rest :
  c < 65536 ->
  parse_chars (unicode_escape c ++ rest)
  = match parse_chars rest with
    | Some (t, r) => Some (c :: t, r)
    | None => None
    end.
Proof.
  intros H. unfold unicode_escape. cbn [app parse_chars].
  change (92 =? 34) with false. change (92 =? 92) with true.
  change (117 =? 117) with true. cbv iota.
  now rewrite hex4_unicode_escape.
Qed.

Lemma parse_chars_literal c rest :
  c <> 34 -> c <> 92 -> 32 <= c ->
  parse_chars (c :: rest)
  = match parse_chars rest with
    | Some (t, r) => Some (c :: t, r)
    | None => None
    end.
Proof.
  intros H1 H2 H3. cbn [parse_chars].
  apply N.eqb_neq in H1, H2. rewrite H1, H2.
  apply N.ltb_ge in H3. now rewrite H3.
Qed.

(** A quoted string reads back as the string, up to the closing
    quotation mark, whatever code units it holds. *)
Lemma parse_chars_quote_chars s : forall rest,
  parse_chars (quote_chars s ++ 34 :: rest) = Some (s, rest).
Proof.
  induction s as [s IH] using (well_founded_induction
    (Wf_nat.well_founded_ltof _ (@List.length char16))).
  unfold Wf_nat.ltof in IH. intros rest.
  destruct s as [|c r]; [reflexivity|].
  assert (IHr : forall rest, parse_chars (quote_chars r ++ 34 :: rest) = Some (r, rest))
    by (intros; apply IH; cbn; lia).
  cbn [quote_chars].
  destruct (c =? 8) eqn:E8.
  { apply N.eqb_eq in E8. subst c. cbn. now rewrite IHr. }
  destruct (c =? 9) eqn:E9.
  { apply N.eqb_eq in E9. subst c. cbn. now rewrite IHr. }
  destruct (c =? 10) eqn:E10.
  { apply N.eqb_eq in E10. subst c. cbn. now rewrite IHr. }
  destruct (c =? 12) eqn:E12.
  { apply N.eqb_eq in E12. subst c. cbn. now rewrite IHr. }
  destruct (c =? 13) eqn:E13.
  { apply N.eqb_eq in E13. subst c. cbn. now rewrite IHr. }
  destruct (c =? 34) eqn:E34.
  { apply N.eqb_eq in E34. subst c. cbn. now rewrite IHr. }
  destruct (c =? 92) eqn:E92.
  { apply N.eqb_eq in E92. subst c. cbn. now rewrite IHr. }
  apply N.eqb_neq in E34, E92.
  destruct (c <? 32) eqn:E32.
  { apply N.ltb_lt in E32. rewrite <- app_assoc, parse_chars_unicode_escape by lia.
    now rewrite IHr. }
  apply N.ltb_ge in E32.
  destruct (is_leading_surrogate c) eqn:El.
  { unfold is_leading_surrogate in El. apply andb_prop in El as [El1 El2].
    apply N.leb_le in El1, El2.
    destruct r as [|d r'].
    - rewrite parse_chars_unicode_escape by lia. reflexivity.
    - destruct (is_trailing_surrogate d) eqn:Et.
      + unfold is_trailing_surrogate in Et. apply andb_prop in Et as [Et1 Et2].
        apply N.leb_le in Et1, Et2.
        cbn [app]. rewrite !parse_chars_literal by lia.
        rewrite IH by (cbn; lia). reflexivity.
      + rewrite <- app_assoc, parse_chars_unicode_escape by lia. now rewrite IHr. }
  destruct (is_trailing_surrogate c) eqn:Et.
  { unfold is_trailing_surrogate in Et. apply andb_prop in Et as [Et1 Et2].
    apply N.leb_le in Et1, Et2.
    rewrite <- app_assoc, parse_chars_unicode_escape by lia. now rewrite IHr. }
  cbn [app]. rewrite parse_chars_literal by assumption. now rewrite IHr.
Qed.

(** *** JSON.stringify and JSON.parse *)

Lemma first_keys_map {A B} (g : A -> B) (ms : list (jsstring * A)) : forall seen,
  first_keys seen (map (fun m => (fst m, g (snd m))) ms) = first_keys seen ms.
Proof.
  induction ms as [|[k a] ms IH]; intros seen; [reflexivity|].
  cbn. destruct (existsb (jsstring_eqb k) seen); now rewrite IH.
Qed.

Lemma last_binding_map {A B} (g : A -> B) k (ms : list (jsstring * A)) :
  last_binding k (map (fun m => (fst m, g (snd m))) ms)
  = option_map g (last_binding k ms).
Proof.
  unfold last_binding. change (@None B) with (option_map g None).
  generalize (@None A) as acc.
  induction ms as [|[k' a] ms IH]; intros acc; [reflexivity|].
  cbn. rewrite <- IH. now destruct (jsstring_eqb k' k).
Qed.

(** The enumeration order looks at the keys only. *)
Lemma own_properties_map {A B} (g : A -> B) (ms : list (jsstring * A)) :
  own_properties (map (fun m => (fst m, g (snd m))) ms)
  = map (fun m => (fst m, g (snd m))) (own_properties ms).
Proof.
  unfold own_properties, property_keys. rewrite first_keys_map.
  induction (_ ++ _) as [|k ks IH]; [reflexivity|].
  cbn [flat_map]. rewrite map_app, IH, last_binding_map.
  now destruct (last_binding k ms).
Qed.

Lemma parse_value_string f s rest :
  parse_value (S f) (QuoteJSONString s ++ rest) = POk (JString s) rest.
Proof.
  unfold QuoteJSONString. cbn [app parse_value skip_ws].
  change (is_ws 34) with false. cbv iota.
  change (34 =? 123) with false. change (34 =? 91) with false.
  change (34 =? 34) with true. cbv iota.
  rewrite <- app_assoc. cbn [app]. now rewrite parse_chars_quote_chars.
Qed.

Lemma starts_value_app t rest : starts_value t -> starts_value (t ++ rest).
Proof. destruct t; [contradiction | trivial]. Qed.

Lemma starts_value_skip_ws t : starts_value t -> skip_ws t = t.
Proof. destruct t as [|c t]; [contradiction|]. intros [H _]. cbn. now rewrite H. Qed.

Lemma starts_value_not_closing t : starts_value t -> expect 93 t = None.
Proof.
  destruct t as [|c t]; [contradiction|]. intros [_ H]. cbn.
  apply N.eqb_neq in H. now rewrite H.
Qed.

Lemma reads_back_text v :
  reads_back v -> exists t, serialize v = Some t /\ element_text v = t /\ starts_value t.
Proof.
  intros (t & f0 & Hs & Hv & _). exists t. unfold element_text. now rewrite Hs.
Qed.

(** The elements of an array, read after its opening bracket. *)
Lemma reads_back_elements es :
  Forall reads_back es -> es <> [] ->
  exists f0, forall rest f, (f0 <= f)%nat ->
    parse_elements f (join_comma (map element_text es) ++ 93 :: rest) = POk es rest.
Proof.
  induction 1 as [|e es He Hes IH]; [congruence|]. intros _.
  pose proof (reads_back_text e He) as (t' & _ & Et & _).
  destruct He as (t & f0 & Hs & Hv & Hp).
  unfold element_text in Et. rewrite Hs in Et. subst t'.
  destruct es as [|e' es'].
  - exists (S f0). intros rest [|f] Hf; [lia|].
    cbn [map join_comma parse_elements]. unfold element_text at 1. rewrite Hs.
    rewrite Hp by lia. reflexivity.
  - destruct IH as [f1 IH]; [discriminate|].
    exists (S (Nat.max f0 f1)). intros rest [|f] Hf; [lia|].
    cbn [parse_elements]. change (map element_text (e :: e' :: es'))
      with (element_text e :: map element_text (e' :: es')).
    change (join_comma (element_text e :: map element_text (e' :: es')))
      with (element_text e ++ 44 :: join_comma (map element_text (e' :: es'))).
    unfold element_text at 1. rewrite Hs, <- app_assoc, Hp by lia.
    cbn [app skip_ws]. change (is_ws 44) with false. cbv iota.
    cbn [expect]. change (44 =? 44) with true. cbv iota.
    rewrite IH by lia. reflexivity.
Qed.

(** The members of an object, read after its opening brace. *)
Lemma reads_back_members ms :
  Forall (fun m => reads_back (snd m)) ms -> ms <> [] ->
  exists f0, forall rest f, (f0 <= f)%nat ->
    parse_members f (join_comma (map member_text ms) ++ 125 :: rest) = POk ms rest.
Proof.
  induction 1 as [|[k v] ms Hv Hms IH]; [congruence|]. intros _.
  cbn [snd] in Hv.
  destruct Hv as (t & f0 & Hs & Hst & Hp).
  assert (Hstep : forall f tail,
    (f0 <= f)%nat ->
    parse_members (S f) (member_text (k, v) ++ tail)
    = match expect 44 (skip_ws tail), expect 125 (skip_ws tail) with
      | Some r4, _ => pmap (cons (k, v)) (parse_members f r4)
      | None, Some r4 => POk [(k, v)] r4
      | None, None => PErr
      end).
  { intros f tail Hf. unfold member_text, QuoteJSONString, element_text.
    cbn [fst snd]. rewrite Hs. cbn [parse_members app skip_ws].
    change (is_ws 34) with false. cbv iota. cbn [expect].
    change (34 =? 34) with true. cbv iota.
    rewrite <- !app_assoc. cbn [app]. rewrite parse_chars_quote_chars.
    cbn [skip_ws]. change (is_ws 58) with false. cbv iota.
    cbn [expect]. change (58 =? 58) with true. cbv iota.
    rewrite Hp by assumption. reflexivity. }
  destruct ms as [|m' ms'].
  - exists (S f0). intros rest [|f] Hf; [lia|].
    cbn [map join_comma]. rewrite Hstep by lia. reflexivity.
  - destruct IH as [f1 IH]; [discriminate|].
    exists (S (Nat.max f0 f1)). intros rest [|f] Hf; [lia|].
    change (join_comma (map member_text ((k, v) :: m' :: ms')))
      with (member_text (k, v) ++ 44 :: join_comma (map member_text (m' :: ms'))).
    rewrite <- app_assoc, Hstep by lia.
    cbn [app skip_ws]. change (is_ws 44) with false. cbv iota.
    cbn [expect]. change (44 =? 44) with true. cbv iota.
    rewrite IH by lia. reflexivity.
Qed.

Lemma serialize_object ms :
  serialize (JObject ms)
  = Some (123 :: join_comma
                   (flat_map (fun m : jsstring * option jsstring =>
                                match snd m with
                                | Some t => [QuoteJSONString (fst m) ++ 58 :: t]
                                | None => []
                                end)
                             (own_properties
                                (map (fun m => (fst m, serialize (snd m))) ms)))
              ++ [125]).
Proof. reflexivity. Qed.

Lemma serialize_array elems :
  serialize (JArray elems) = Some (91 :: join_comma (map element_text elems) ++ [93]).
Proof. reflexivity. Qed.

Lemma serialize_members ms :
  own_properties ms = ms ->
  Forall (fun m => reads_back (snd m)) ms ->
  serialize (JObject ms) = Some (123 :: join_comma (map member_text ms) ++ [125]).
Proof.
  intros Ho Hall. rewrite serialize_object, own_properties_map, Ho.
  assert (H : flat_map (fun m : jsstring * option jsstring =>
                          match snd m with
                          | Some t => [QuoteJSONString (fst m) ++ 58 :: t]
                          | None => []
                          end)
                       (map (fun m => (fst m, serialize (snd m))) ms)
              = map member_text ms).
  { clear Ho. induction Hall as [|[k v] ms Hv _ IH]; [reflexivity|].
    cbn [map flat_map fst snd]. rewrite IH.
    destruct (reads_back_text v Hv) as (t & Hs & Et & _).
    unfold member_text at 2. cbn [fst snd]. rewrite Hs, Et. reflexivity. }
  now rewrite H.
Qed.

Lemma parse_value_array f body :
  starts_value body ->
  parse_value (S f) (91 :: body) = pmap JArray (parse_elements f body).
Proof.
  intros H. cbn [parse_value skip_ws]. change (is_ws 91) with false. cbv iota.
  change (91 =? 123) with false. change (91 =? 91) with true. cbv iota.
  now rewrite (starts_value_skip_ws _ H), (starts_value_not_closing _ H).
Qed.

Lemma parse_value_object f body :
  (exists tail, body = 34 :: tail) ->
  parse_value (S f) (123 :: body) = pmap JObject (parse_members f body).
Proof. intros [tail ->]. reflexivity. Qed.

(** Induction on a value, with the property at hand for the elements of
    an array and the values of the members of an object. *)
Lemma jsval_nested_ind (P : jsval -> Prop) :
  P JUndefined -> P JNull -> (forall b, P (JBool b)) -> (forall n, P (JNumber n)) ->
  (forall s, P (JString s)) ->
  (forall elems, Forall P elems -> P (JArray elems)) ->
  (forall ms, Forall (fun m => P (snd m)) ms -> P (JObject ms)) ->
  forall v, P v.
Proof.
  intros HU HN HB HNum HS HA HO.
  exact (fix F (v : jsval) : P v :=
           match v with
           | JUndefined => HU
           | JNull => HN
           | JBool b => HB b
           | JNumber n => HNum n
           | JString s => HS s
           | JArray elems =>
             HA elems
                ((fix G (l : list jsval) : Forall P l :=
                    match l with
                    | [] => Forall_nil P
                    | e :: r => Forall_cons e (F e) (G r)
                    end) elems)
           | JObject ms =>
             HO ms
                ((fix G (l : list (jsstring * jsval)) : Forall (fun m => P (snd m)) l :=
                    match l with
                    | [] => Forall_nil _
                    | (k, x) :: r =>
                      Forall_cons (P := fun m => P (snd m)) (k, x) (F x) (G r)
                    end) ms)
           end).
Qed.

Lemma Forall_modus_ponens {A} (P Q : A -> Prop) l :
  Forall (fun x => P x -> Q x) l -> Forall P l -> Forall Q l.
Proof.
  induction 1 as [|x l Hx _ IH]; intros H; [constructor|].
  inversion H; subst. constructor; auto.
Qed.

(** [JSON.parse] reads the text of a plain value back as that value. *)
Lemma plain_reads_back : forall v, Plain v -> reads_back v.
Proof.
  induction v as [| |b|n|s|elems Hall|ms Hall] using jsval_nested_ind; intros Hp.
  - inversion Hp.
  - exists (u16 "null"), 1%nat. repeat split; [discriminate|].
    intros rest [|f] Hf; [lia | reflexivity].
  - destruct b.
    + exists (u16 "true"), 1%nat. repeat split; [discriminate|].
      intros rest [|f] Hf; [lia | reflexivity].
    + exists (u16 "false"), 1%nat. repeat split; [discriminate|].
      intros rest [|f] Hf; [lia | reflexivity].
  - inversion Hp.
  - exists (QuoteJSONString s), 1%nat. repeat split; [discriminate|].
    intros rest [|f] Hf; [lia | apply parse_value_string].
  - assert (HQ : Forall reads_back elems).
    { apply (Forall_modus_ponens _ _ _ Hall). now inversion Hp. }
    clear Hall. destruct elems as [|e es].
    + exists [91; 93], 1%nat. repeat split; [discriminate|].
      intros rest [|f] Hf; [lia | reflexivity].
    + destruct (reads_back_elements (e :: es) HQ) as [f0 Hf0]; [discriminate|].
      exists (91 :: join_comma (map element_text (e :: es)) ++ [93]), (S f0).
      split; [reflexivity|]. split; [split; [reflexivity | discriminate]|].
      intros rest [|f] Hf; [lia|].
      cbn [app]. rewrite <- app_assoc. cbn [app].
      assert (Hst : starts_value
                      (join_comma (map element_text (e :: es)) ++ 93 :: rest)).
      { inversion HQ as [|? ? He _]; subst.
        destruct (reads_back_text e He) as (t & _ & Et & Hst).
        destruct es; cbn [map join_comma]; rewrite Et;
          [|rewrite <- app_assoc]; now apply starts_value_app. }
      rewrite (parse_value_array _ _ Hst), Hf0 by lia. reflexivity.
  - assert (Ho : own_properties ms = ms) by (now inversion Hp).
    assert (HQ : Forall (fun m => reads_back (snd m)) ms).
    { apply (Forall_modus_ponens _ _ _ Hall). now inversion Hp. }
    clear Hall. destruct ms as [|m ms'].
    + exists [123; 125], 1%nat. repeat split; [discriminate|].
      intros rest [|f] Hf; [lia | reflexivity].
    + destruct (reads_back_members (m :: ms') HQ) as [f0 Hf0]; [discriminate|].
      exists (123 :: join_comma (map member_text (m :: ms')) ++ [125]), (S f0).
      split; [now apply serialize_members|].
      split; [split; [reflexivity | discriminate]|].
      intros rest [|f] Hf; [lia|].
      cbn [app]. rewrite <- app_assoc. cbn [app].
      assert (Hq : exists tail,
                 join_comma (map member_text (m :: ms')) ++ 125 :: rest = 34 :: tail).
      { destruct ms'; cbn [map join_comma]; unfold member_text at 1, QuoteJSONString;
          eexists; reflexivity. }
      rewrite (parse_value_object _ _ Hq), Hf0 by lia. reflexivity.
Qed.

(** For a plain value, [JSON.parse(JSON.stringify(v))] is [v]. *)
Lemma stringify_parse v :
  Plain v -> exists text, JSON_stringify v = Some text /\ Json.parse text = Some v.
Proof.
  intros Hp. destruct (plain_reads_back v Hp) as (t & f0 & Hs & _ & Hparse).
  exists t. split; [exact Hs|]. unfold Json.parse.
  rewrite <- (parse_value_stable t (Nat.max f0 (budget t))) by lia.
  specialize (Hparse [] (Nat.max f0 (budget t))). rewrite app_nil_r in Hparse.
  rewrite Hparse by lia. reflexivity.
Qed.

Lemma body_plain self params : Plain (body (request self params)).
Proof.
  cbn [request body]. apply Plain_object; [reflexivity|].
  unfold buildMessages, message_of. repeat constructor.
Qed.

(** *** Further properties of the adapter *)

(** X1.  For a payload other than the sentinel the handler completes
    without throwing, whatever the payload and the state: the SyntaxError
    of [JSON.parse], the TypeError of reading a property of [null] or
    [undefined] and the TypeError of a conversion to a string or a Number
    are raised inside the [try] and caught.  In particular a delta whose
    content cannot be converted emits nothing and leaves the text as it
    was; the identifier of the frame has been recorded by then.  (For the
    sentinel the handler calls [params.onEvent] before the [try].) *)
Theorem errors_inside_try_are_caught m st :
  m <> u16 "[DONE]" ->
  (fst (fst (onMessage m st)) = Normal tt \/ fst (fst (onMessage m st)) = Return)
  /\ (forall content e,
        frame_action m = Append content -> toString content = inr e ->
        emitted (onMessage m st) = []
        /\ after (onMessage m st) = record_id m st).
Proof.
  intros _. split.
  - destruct (onMessage_step m st) as (c & -> & H). cbn [fst].
    destruct c as [[]| |e]; [now left | now right | now contradiction (H e)].
  - intros content e Ha Ht. rewrite onMessage_emitted, onMessage_after.
    unfold step. rewrite Ha, Ht. split; reflexivity.
Qed.

Lemma step_result m st :
  result (fst (step m st)) = result st ++ frame_delta m.
Proof.
  unfold frame_delta. step_cases m; cbn [fst result];
    try (now rewrite record_id_result, app_nil_r).
  reflexivity.
Qed.

Lemma deliver_result fs : forall st,
  result (fst (deliver fs st)) = result st ++ List.concat (map frame_delta fs).
Proof.
  induction fs as [|f fs IH]; intros st.
  - cbn. now rewrite app_nil_r.
  - rewrite deliver_step. cbn [fst map List.concat].
    now rewrite IH, step_result, app_assoc.
Qed.

Lemma last_default {A} (l : list A) d d' : l <> [] -> last l d = last l d'.
Proof.
  induction l as [|x l IH]; [congruence|]. intros _.
  destruct l as [|y l]; [reflexivity|]. cbn [last] in *. apply IH. discriminate.
Qed.

Lemma last_app_nonempty {A} (a b : list A) d : b <> [] -> last (a ++ b) d = last b d.
Proof.
  intros Hb. induction a as [|x a IH]; [reflexivity|].
  cbn [app]. destruct (a ++ b) as [|y l] eqn:E.
  - destruct a; [now subst | discriminate].
  - exact IH.
Qed.

Lemma step_silent_result m st :
  answer_texts (snd (step m st)) = [] -> result (fst (step m st)) = result st.
Proof.
  step_cases m; cbn; try discriminate; intros _; apply record_id_result.
Qed.

Lemma deliver_last_text fs : forall st,
  last (answer_texts (snd (deliver fs st))) (result st)
  = result (fst (deliver fs st)).
Proof.
  induction fs as [|f fs IH]; intros st; [reflexivity|].
  rewrite deliver_step. cbn [fst snd]. rewrite answer_texts_app.
  specialize (IH (fst (step f st))).
  destruct (answer_texts (snd (deliver fs (fst (step f st))))) as [|t ts] eqn:Et.
  - rewrite app_nil_r. cbn [last] in IH. rewrite <- IH.
    destruct (step_texts f st) as [E | E]; rewrite E; cbn [last].
    + symmetry. now apply step_silent_result.
    + reflexivity.
  - rewrite <- IH, last_app_nonempty by discriminate. now apply last_default.
Qed.

(** X2.  The text of the last Answer of a call (the empty text when there
    is none) is the concatenation, in the order of delivery, of the deltas
    of all frames delivered. *)
Theorem last_answer_is_concatenation self params :
  last (answer_texts (events (generateAnswer self params))) []
  = List.concat (map frame_delta (frames (fetchSSE (request self params)))).
Proof.
  unfold generateAnswer. cbn [events].
  change (@nil char16) with (result initial) at 1.
  rewrite deliver_last_text, deliver_result. reflexivity.
Qed.

Lemma step_at_most_one m st : (List.length (snd (step m st)) <= 1)%nat.
Proof. step_cases m; cbn; lia. Qed.

(** X3.  The handler emits at most one event for a frame, so a call emits
    no more events than frames were delivered. *)
Theorem at_most_one_event_per_frame self params :
  (forall m st, (List.length (emitted (onMessage m st)) <= 1)%nat)
  /\ (List.length (events (generateAnswer self params))
      <= List.length (frames (fetchSSE (request self params))))%nat.
Proof.
  split.
  - intros m st. rewrite onMessage_emitted. apply step_at_most_one.
  - unfold generateAnswer. cbn [events].
    generalize initial. induction (frames _) as [|f fs IH]; intros st; [cbn; lia|].
    rewrite deliver_step. cbn [snd]. rewrite length_app.
    pose proof (step_at_most_one f st). specialize (IH (fst (step f st))).
    cbn [List.length]. lia.
Qed.

(** X4.  A frame whose payload parses but has no choice to offer, the
    [choices] member being absent, [null] or an empty array, emits nothing
    and leaves the text as it is; its identifier is still recorded. *)
Theorem frame_without_choice_is_silent m st data choices :
  Json.parse m = Some data ->
  get data Kchoices = inl choices ->
  choices = JUndefined \/ choices = JNull \/ choices = JArray [] ->
  emitted (onMessage m st) = []
  /\ after (onMessage m st) = record_id m st.
Proof.
  intros Hp Hc Hs.
  rewrite onMessage_emitted, onMessage_after. unfold step, frame_action.
  rewrite (parsed_not_sentinel _ _ Hp), Hp.
  assert (Hn : first_choice data = None).
  { unfold first_choice. rewrite Hc. destruct Hs as [-> | [-> | ->]]; reflexivity. }
  rewrite Hn. split; reflexivity.
Qed.

(** X5.  A payload that parses to something other than an object ([null],
    a number, a string, a boolean, an array) changes nothing: no event, the
    text and the identifier as before. *)
Theorem non_object_payload_ignored m st data :
  Json.parse m = Some data ->
  (forall members, data <> JObject members) ->
  emitted (onMessage m st) = [] /\ after (onMessage m st) = st.
Proof.
  intros Hp Hn.
  rewrite onMessage_emitted, onMessage_after.
  unfold step, frame_action, record_id, frame_id, first_choice.
  rewrite (parsed_not_sentinel _ _ Hp), Hp.
  destruct data as [| |b|n|s|elems|ms]; cbn;
    try (destruct (truthy (messageId st)); split; reflexivity).
  now contradiction (Hn ms).
Qed.

(** X6.  Only the first choice of a payload counts: two frames with the
    same identifier and the same first choice have the same effect,
    whatever other choices they hold. *)
Theorem only_first_choice_counts m m' st data data' choice others others' :
  Json.parse m = Some data ->
  Json.parse m' = Some data' ->
  get data Kid = get data' Kid ->
  get data Kchoices = inl (JArray (choice :: others)) ->
  get data' Kchoices = inl (JArray (choice :: others')) ->
  emitted (onMessage m st) = emitted (onMessage m' st)
  /\ after (onMessage m st) = after (onMessage m' st).
Proof.
  intros Hp Hp' Hid Hc Hc'.
  rewrite !onMessage_emitted, !onMessage_after.
  assert (E : step m st = step m' st).
  { unfold step, frame_action, record_id, frame_id.
    rewrite (parsed_not_sentinel _ _ Hp), (parsed_not_sentinel _ _ Hp'), Hp, Hp', Hid.
    now rewrite (first_choice_of_array _ _ _ Hc), (first_choice_of_array _ _ _ Hc'). }
  now rewrite E.
Qed.

Lemma frame_action_append_truthy m c : frame_action m = Append c -> truthy c = true.
Proof.
  unfold frame_action.
  destruct (jsstring_eqb m (u16 "[DONE]")); [discriminate|].
  destruct (Json.parse m) as [data|]; [|discriminate].
  destruct (first_choice data) as [choice|]; [|discriminate].
  destruct (get choice Kfinish_reason) as [fr|]; [|discriminate].
  destruct (strict_eq_string fr (u16 "stop")); [discriminate|].
  destruct (truthy (delta_content choice)) eqn:E; [|discriminate].
  now intros [= <-].
Qed.

(** X7.  When the deltas that are appended are strings, as the protocol
    has them, no Answer of the call has an empty text. *)
Theorem string_deltas_give_nonempty_texts self params :
  (forall f c, In f (frames (fetchSSE (request self params))) ->
               frame_action f = Append c -> exists s, c = JString s) ->
  Forall (fun t => t <> []) (answer_texts (events (generateAnswer self params))).
Proof.
  unfold generateAnswer. cbn [events]. generalize initial.
  induction (frames _) as [|f fs IH]; intros st H; [constructor|].
  rewrite deliver_step. cbn [snd]. rewrite answer_texts_app.
  apply Forall_app. split.
  - unfold step. destruct (frame_action f) as [|c|] eqn:E; cbn; try constructor.
    destruct (H f c (or_introl eq_refl) E) as [s ->].
    apply frame_action_append_truthy in E. apply truthy_string in E.
    cbn [toString snd answer_texts]. constructor; [|constructor].
    destruct s; [congruence|]. now destruct (result st).
  - apply IH. intros f' c Hin. apply H. now right.
Qed.

(** X8.  The body of the request is JSON text that [JSON.parse] reads back
    as the object with the model, the two messages of [buildMessages] and
    [stream: true]: the model name and the prompt arrive as they are,
    whatever code units they hold. *)
Theorem body_text_reads_back self params :
  exists text,
    body_text self params = Some text
    /\ Json.parse text = Some (body (request self params)).
Proof. apply stringify_parse, body_plain. Qed.

End Adapter.

(** *** Concrete runs *)

(** What [JSON.parse] makes of the frames above. *)
Example parse_hello_1 :
  Json.parse hello_1
  = Some (JObject
            [ (u16 "id", JString (u16 "m1"));
              (u16 "choices",
               JArray [JObject [(u16 "delta",
                                 JObject [(u16 "content", JString (u16 "Hel"))])]]) ]).
Proof. vm_compute. reflexivity. Qed.

Example parse_not_json :
  Json.parse sentinel = None /\ Json.parse keep_alive = None.
Proof. split; vm_compute; reflexivity. Qed.

Example parse_numbers_and_escapes :
  Json.parse (wire " [ -2.50e+3, 0, true, null, 'a\n\u00e9\/' ] ")
  = Some (JArray [ JNumber (mkNum true 250 1); JNumber (mkNum false 0 0);
                   JBool true; JNull; JString [97; 10; 233; 47] ]).
Proof. vm_compute. reflexivity. Qed.

Example parse_rejects :
  map Json.parse
      (map wire ["01"; "1."; ".5"; "+1"; "[1,]"; "{'a':1,}"; "{a:1}"; "'a"; "tru"; "1 2"]%string)
  = [None; None; None; None; None; None; None; None; None; None].
Proof. vm_compute. reflexivity. Qed.

(** The handler on payloads outside the protocol: an identifier that is a
    number is recorded as it is; [null], a string for the choices, a
    [null] choice and a length that does not convert emit nothing; a delta
    that is [true] is appended as text, an array is joined, an object
    reads [object Object] unless it has a member named toString, which
    emits nothing. *)
Example untyped_payloads Number_toString StringToNumber_positive :
  snd (deliver Number_toString StringToNumber_positive
         (map wire [ "{'id':7,'choices':[{'delta':{'content':'x'}}]}";
                     "null";
                     "{'id':'late','choices':'abc'}";
                     "{'choices':[null]}";
                     "{'choices':{'length':{'toString':null},'0':{'delta':{'content':'y'}}}}";
                     "{'choices':[{'delta':{'content':true}}]}";
                     "{'choices':[{'delta':{'content':['a',null,['b','c']]}}]}";
                     "{'choices':[{'delta':{'content':[{'toString':1}]}}]}";
                     "{'choices':[{'delta':{'content':{'valueOf':1}}}]}" ]%string)
         initial)
  = [ answer (u16 "x") (JNumber (mkNum false 7 0)) (JNumber (mkNum false 7 0));
      answer (u16 "xtrue") (JNumber (mkNum false 7 0)) (JNumber (mkNum false 7 0));
      answer (u16 "xtruea,,b,c") (JNumber (mkNum false 7 0)) (JNumber (mkNum false 7 0));
      answer (u16 "xtruea,,b,c[object Object]")
             (JNumber (mkNum false 7 0)) (JNumber (mkNum false 7 0)) ].
Proof. vm_compute. reflexivity. Qed.

(** C3.  For a stream whose frames are the payload with id m1 and delta
    Hel, the payload with delta lo, and the sentinel, [generateAnswer]
    emits Answer Hel, Answer Hello, both with m1 as message and
    conversation identifier, then Done, in that order. *)
Theorem hello_stream_events Number_toString StringToNumber_positive
    (AbortSignal : Type) (self : OpenAIProvider)
    (params : GenerateAnswerParams AbortSignal) (settle : Promise unit) :
  events (generateAnswer Number_toString StringToNumber_positive AbortSignal
            (scripted [hello_1; hello_2; sentinel] settle) self params)
  = [ answer (u16 "Hel") (JString (u16 "m1")) (JString (u16 "m1"));
      answer (u16 "Hello") (JString (u16 "m1")) (JString (u16 "m1"));
      done ].
Proof. vm_compute. reflexivity. Qed.

(** Against C1 as stated: with the frames sentinel, delta a, sentinel the
    call emits Done, then an Answer, then a second Done. *)
Lemma second_sentinel_emits_second_done :
  events (generateAnswer no_Number_toString no_StringToNumber_positive unit
            (scripted [sentinel; delta_a; sentinel] (resolved tt))
            (new_OpenAIProvider [] [] None) (mkParams unit [] tt))
  = [ done; answer (u16 "a") (JString []) (JString []); done ]
  /\ terminal_count
       (events (generateAnswer no_Number_toString no_StringToNumber_positive unit
                  (scripted [sentinel; delta_a; sentinel] (resolved tt))
                  (new_OpenAIProvider [] [] None) (mkParams unit [] tt)))
     = 2%nat.
Proof. split; vm_compute; reflexivity. Qed.

Lemma done_last_when_terminal_frame_last_witness :
  Forall (fun f => terminal_frame no_Number_toString no_StringToNumber_positive f = false)
         (removelast [hello_1; hello_2; sentinel])
  /\ (terminal_count
        (events (generateAnswer no_Number_toString no_StringToNumber_positive unit
                   (scripted [hello_1; hello_2; sentinel] (resolved tt))
                   (new_OpenAIProvider [] [] None) (mkParams unit [] tt))) <= 1)%nat.
Proof.
  split.
  - repeat (constructor; [vm_compute; reflexivity|]); constructor.
  - refine (proj1 (done_last_when_terminal_frame_last
                     no_Number_toString no_StringToNumber_positive unit
                     (scripted [hello_1; hello_2; sentinel] (resolved tt))
                     (new_OpenAIProvider [] [] None) (mkParams unit [] tt) _)).
    repeat (constructor; [vm_compute; reflexivity|]); constructor.
Defined.

(** Against C2 as stated: a stream that ends after two deltas, without a
    sentinel or stop frame, leaves the call without any terminal event, and
    so does a transport error at that point, which rejects the promise. *)
Lemma stream_end_and_transport_error_emit_no_error :
  terminal_count
    (events (generateAnswer no_Number_toString no_StringToNumber_positive unit
               (scripted [hello_1; hello_2] (resolved tt))
               (new_OpenAIProvider [] [] None) (mkParams unit [] tt)))
  = 0%nat
  /\ events (generateAnswer no_Number_toString no_StringToNumber_positive unit
               (scripted [hello_1; hello_2] (rejected (u16 "network error")))
               (new_OpenAIProvider [] [] None) (mkParams unit [] tt))
     = [ answer (u16 "Hel") (JString (u16 "m1")) (JString (u16 "m1"));
         answer (u16 "Hello") (JString (u16 "m1")) (JString (u16 "m1")) ]
  /\ promise (generateAnswer no_Number_toString no_StringToNumber_positive unit
                (scripted [hello_1; hello_2] (rejected (u16 "network error")))
                (new_OpenAIProvider [] [] None) (mkParams unit [] tt))
     = rejected (u16 "network error").
Proof. repeat split; vm_compute; reflexivity. Qed.

Lemma unparsable_frame_skipped_witness :
  keep_alive <> u16 "[DONE]"
  /\ Json.parse keep_alive = None
  /\ events (generateAnswer no_Number_toString no_StringToNumber_positive unit
               (scripted ([hello_1] ++ keep_alive :: [hello_2; sentinel]) (resolved tt))
               (new_OpenAIProvider [] [] None) (mkParams unit [] tt))
     = snd (deliver no_Number_toString no_StringToNumber_positive
              ([hello_1] ++ [hello_2; sentinel]) initial).
Proof.
  split; [discriminate|]. split; [vm_compute; reflexivity|].
  refine (proj1 (proj2 (unparsable_frame_skipped
                          no_Number_toString no_StringToNumber_positive unit
                          (scripted ([hello_1] ++ keep_alive :: [hello_2; sentinel])
                                    (resolved tt))
                          (new_OpenAIProvider [] [] None) (mkParams unit [] tt)
                          [hello_1] keep_alive [hello_2; sentinel] _ _ _)));
    [vm_compute; reflexivity | discriminate | vm_compute; reflexivity].
Defined.

Lemma stop_frame_emits_done_only_witness :
  stop_frame no_Number_toString no_StringToNumber_positive stop_only = true
  /\ emitted (onMessage no_Number_toString no_StringToNumber_positive stop_only
                (mkState (u16 "Hello") (JString (u16 "m1"))))
     = [done].
Proof.
  split; [vm_compute; reflexivity|].
  refine (proj1 (stop_frame_emits_done_only
                   no_Number_toString no_StringToNumber_positive stop_only
                   (mkState (u16 "Hello") (JString (u16 "m1"))) _ _ _ _ _));
    vm_compute; reflexivity.
Defined.

Lemma messageId_write_once_witness :
  Forall (fun m => frame_id m = None) [delta_a]
  /\ frame_id hello_1 = Some (JString (u16 "m1"))
  /\ messageId (fst (deliver no_Number_toString no_StringToNumber_positive
                       ([delta_a] ++ hello_1 :: [delta_b; sentinel]) initial))
     = JString (u16 "m1").
Proof.
  split; [repeat (constructor; [vm_compute; reflexivity|]); constructor|].
  split; [vm_compute; reflexivity|].
  refine (proj1 (messageId_write_once
                   no_Number_toString no_StringToNumber_positive unit
                   (scripted ([delta_a] ++ hello_1 :: [delta_b; sentinel]) (resolved tt))
                   (new_OpenAIProvider [] [] None) (mkParams unit [] tt)
                   [delta_a] hello_1 [delta_b; sentinel] (JString (u16 "m1")) _ _ _)).
  - vm_compute. reflexivity.
  - repeat (constructor; [vm_compute; reflexivity|]); constructor.
  - vm_compute. reflexivity.
Defined.

(** Against C8 as stated: with the content [[]] the delta text is empty
    and the handler emits an Answer all the same, with the text as it was;
    with the content [{toString: 1}] the content passes the test of the
    handler and no Answer is emitted. *)
Lemma truthy_content_is_not_nonempty_text :
  frame_action no_Number_toString no_StringToNumber_positive empty_array_delta
  = Append (JArray [])
  /\ toString no_Number_toString (JArray []) = inl []
  /\ emitted (onMessage no_Number_toString no_StringToNumber_positive empty_array_delta
                (mkState (u16 "Hel") (JString (u16 "m1"))))
     = [answer (u16 "Hel") (JString (u16 "m1")) (JString (u16 "m1"))]
  /\ frame_action no_Number_toString no_StringToNumber_positive unconvertible_delta
     = Append (JObject [(u16 "toString", JNumber (mkNum false 1 0))])
  /\ truthy (JObject [(u16 "toString", JNumber (mkNum false 1 0))]) = true
  /\ onMessage no_Number_toString no_StringToNumber_positive unconvertible_delta
       (mkState (u16 "Hel") (JString []))
     = (Return, mkState (u16 "Hel") (JString (u16 "m1")), []).
Proof. repeat split; vm_compute; reflexivity. Qed.

Lemma answer_iff_content_truthy_and_convertible_witness :
  stop_frame no_Number_toString no_StringToNumber_positive hello_2 = false
  /\ (emitted (onMessage no_Number_toString no_StringToNumber_positive hello_2
                 (mkState (u16 "Hel") (JString (u16 "m1")))),
      result (after (onMessage no_Number_toString no_StringToNumber_positive hello_2
                       (mkState (u16 "Hel") (JString (u16 "m1"))))))
     = ([answer (u16 "Hello") (JString (u16 "m1")) (JString (u16 "m1"))], u16 "Hello").
Proof.
  split; [vm_compute; reflexivity|].
  refine (eq_trans
            (proj1 (answer_iff_content_truthy_and_convertible
                      no_Number_toString no_StringToNumber_positive hello_2
                      (mkState (u16 "Hel") (JString (u16 "m1")))
                      _ (JObject [(u16 "delta",
                                   JObject [(u16 "content", JString (u16 "lo"))])])
                      _ _ _)) _);
    [vm_compute; reflexivity | vm_compute; reflexivity | discriminate
    | vm_compute; reflexivity].
Defined.

Lemma empty_id_before_first_id_witness :
  Forall (fun m => frame_id m = None) [delta_a; hello_2]
  /\ exists later,
       events (generateAnswer no_Number_toString no_StringToNumber_positive unit
                 (scripted ([delta_a; hello_2] ++ [hello_1; sentinel]) (resolved tt))
                 (new_OpenAIProvider [] [] None) (mkParams unit [] tt))
       = snd (deliver no_Number_toString no_StringToNumber_positive
                [delta_a; hello_2] initial) ++ later
       /\ Forall (carries (JString []))
                 (snd (deliver no_Number_toString no_StringToNumber_positive
                         [delta_a; hello_2] initial)).
Proof.
  split; [repeat (constructor; [vm_compute; reflexivity|]); constructor|].
  refine (empty_id_before_first_id
            no_Number_toString no_StringToNumber_positive unit
            (scripted ([delta_a; hello_2] ++ [hello_1; sentinel]) (resolved tt))
            (new_OpenAIProvider [] [] None) (mkParams unit [] tt)
            [delta_a; hello_2] [hello_1; sentinel] _ _).
  - vm_compute. reflexivity.
  - repeat (constructor; [vm_compute; reflexivity|]); constructor.
Defined.

(** *** Runs of the further properties *)

Lemma errors_inside_try_are_caught_witness :
  unconvertible_delta <> u16 "[DONE]"
  /\ (fst (fst (onMessage no_Number_toString no_StringToNumber_positive
                  unconvertible_delta (mkState (u16 "Hel") (JString []))))
      = Normal tt
      \/ fst (fst (onMessage no_Number_toString no_StringToNumber_positive
                     unconvertible_delta (mkState (u16 "Hel") (JString []))))
         = Return).
Proof.
  split; [discriminate|].
  refine (proj1 (errors_inside_try_are_caught
                   no_Number_toString no_StringToNumber_positive unconvertible_delta
                   (mkState (u16 "Hel") (JString [])) _)).
  discriminate.
Defined.

Lemma frame_without_choice_is_silent_witness :
  emitted (onMessage no_Number_toString no_StringToNumber_positive no_choices initial) = []
  /\ after (onMessage no_Number_toString no_StringToNumber_positive no_choices initial)
     = mkState [] (JString (u16 "m1")).
Proof.
  refine (frame_without_choice_is_silent
            no_Number_toString no_StringToNumber_positive no_choices initial
            _ (JArray []) _ _ _);
    [vm_compute; reflexivity | vm_compute; reflexivity | right; right; reflexivity].
Defined.

Lemma non_object_payload_ignored_witness :
  emitted (onMessage no_Number_toString no_StringToNumber_positive null_payload
             (mkState (u16 "Hel") (JString (u16 "m1")))) = []
  /\ after (onMessage no_Number_toString no_StringToNumber_positive null_payload
              (mkState (u16 "Hel") (JString (u16 "m1"))))
     = mkState (u16 "Hel") (JString (u16 "m1")).
Proof.
  refine (non_object_payload_ignored
            no_Number_toString no_StringToNumber_positive null_payload
            (mkState (u16 "Hel") (JString (u16 "m1"))) JNull _ _);
    [vm_compute; reflexivity | discriminate].
Defined.

Lemma only_first_choice_counts_witness :
  emitted (onMessage no_Number_toString no_StringToNumber_positive hello_2
             (mkState (u16 "Hel") (JString (u16 "m1"))))
  = emitted (onMessage no_Number_toString no_StringToNumber_positive two_choices
               (mkState (u16 "Hel") (JString (u16 "m1")))).
Proof.
  refine (proj1 (only_first_choice_counts
                   no_Number_toString no_StringToNumber_positive hello_2 two_choices
                   (mkState (u16 "Hel") (JString (u16 "m1"))) _ _ _ _ _ _ _ _ _ _));
    vm_compute; reflexivity.
Defined.

Lemma string_deltas_give_nonempty_texts_witness :
  Forall (fun t => t <> [])
         (answer_texts
            (events (generateAnswer no_Number_toString no_StringToNumber_positive unit
                       (scripted [hello_1; no_choices; hello_2; sentinel] (resolved tt))
                       (new_OpenAIProvider [] [] None) (mkParams unit [] tt)))).
Proof.
  refine (string_deltas_give_nonempty_texts
            no_Number_toString no_StringToNumber_positive unit
            (scripted [hello_1; no_choices; hello_2; sentinel] (resolved tt))
            (new_OpenAIProvider [] [] None) (mkParams unit [] tt) _).
  intros f c [<- | [<- | [<- | [<- | []]]]] H; vm_compute in H;
    try discriminate H; injection H as <-; eexists; reflexivity.
Defined.

(** *** The options page *)

Lemma map_throwing_get_id elems :
  Forall (fun e => e <> JNull /\ e <> JUndefined) elems ->
  Options.map_throwing (fun model => get model Kid) elems
  = inl (map (fun e => optional_get e Kid) elems).
Proof.
  induction 1 as [|e es [H1 H2] _ IH]; [reflexivity|].
  cbn [Options.map_throwing map]. rewrite IH.
  destruct e; try congruence; reflexivity.
Qed.

Lemma map_throwing_length {A B} (f : A -> B + exn) l ys :
  Options.map_throwing f l = inl ys -> List.length ys = List.length l.
Proof.
  revert ys. induction l as [|x l IH]; intros ys; cbn.
  - now intros [= <-].
  - destruct (f x); [|discriminate].
    destruct (Options.map_throwing f l); [|discriminate].
    intros [= <-]. cbn. f_equal. now apply IH.
Qed.

(** X9.  [fetchModelsFromAPI] never rejects, and what it resolves with
    is the empty list unless the request went through, the response was
    [ok], its body was read and parsed, and its [data] member is an array
    whose entries all have a readable [id]: then it is the list of those
    identifiers, one for each entry. *)
Theorem fetchModels_empty_unless_well_formed env apiKey apiBaseUrl :
  exists ids,
    Options.fetchModelsFromAPI env apiKey apiBaseUrl = Options.Ok ids
    /\ (ids = []
        \/ exists response body data elems,
             Options.fetch env (Options.models_url apiBaseUrl)
                           (Options.models_headers apiKey)
             = Options.Ok response
             /\ Options.ok response = true
             /\ Options.text response = Options.Ok body
             /\ Json.parse body = Some data
             /\ Options.get_data data = inl (JArray elems)
             /\ Options.map_throwing (fun model => get model Kid) elems = inl ids
             /\ List.length ids = List.length elems).
Proof.
  unfold Options.fetchModelsFromAPI, Options.and_then.
  destruct (Options.fetch env _ _) as [response|t] eqn:Ef; [|eauto].
  destruct (Options.ok response) eqn:Eok; cbn [negb]; [|eauto].
  destruct (Options.text response) as [body|t] eqn:Et; [|eauto].
  unfold JSON_parse. destruct (Json.parse body) as [data|] eqn:Ep; cbn; [|eauto].
  destruct (Options.get_data data) as [entries|e] eqn:Ed; cbn; [|eauto].
  destruct entries as [| | | | |elems|]; cbn; eauto.
  destruct (Options.map_throwing _ elems) as [ids|e] eqn:Em; cbn; [|eauto].
  exists ids. split; [reflexivity|]. right.
  exists response, body, data, elems. repeat split; try assumption.
  now apply map_throwing_length in Em.
Qed.

(** X10.  When the response is [ok] and its body parses to an object
    whose [data] is an array without [null] entries, [fetchModelsFromAPI]
    resolves with the [id] of every entry, in the order of the entries. *)
Theorem fetchModels_ids_in_order env apiKey apiBaseUrl response body data elems :
  Options.fetch env (Options.models_url apiBaseUrl) (Options.models_headers apiKey)
  = Options.Ok response ->
  Options.ok response = true ->
  Options.text response = Options.Ok body ->
  Json.parse body = Some data ->
  Options.get_data data = inl (JArray elems) ->
  Forall (fun e => e <> JNull /\ e <> JUndefined) elems ->
  Options.fetchModelsFromAPI env apiKey apiBaseUrl
  = Options.Ok (map (fun e => optional_get e Kid) elems).
Proof.
  intros Hf Hok Ht Hp Hd Hn.
  unfold Options.fetchModelsFromAPI, Options.and_then, JSON_parse.
  rewrite Hf, Hok, Ht, Hp. cbn. rewrite Hd. cbn.
  now rewrite map_throwing_get_id.
Qed.

Lemma fetchModels_resolves env apiKey apiBaseUrl :
  exists ids, Options.fetchModelsFromAPI env apiKey apiBaseUrl = Options.Ok ids.
Proof.
  destruct (fetchModels_empty_unless_well_formed env apiKey apiBaseUrl) as (ids & H & _).
  eauto.
Qed.

(** X11.  [loadModels] never shows the toast of its [catch] block,
    because [fetchModelsFromAPI] has caught every failure itself; and a
    refresh that fails ends in the warning that no models were retrieved,
    between the two calls that set and clear the loading flag.  The
    refresh fails when the request is rejected, the response is not [ok],
    its body cannot be read or is not JSON, or what it parses to has no
    non-empty array as [data]. *)
Theorem failed_refresh_warns_without_error_toast env apiKey apiBaseUrl model :
  apiKey <> [] ->
  (forall response body data,
     Options.fetch env
       (Options.models_url
          (Some (if Options.nonempty apiBaseUrl then apiBaseUrl
                 else u16 "https://api.openai.com")))
       (Options.models_headers apiKey)
     = Options.Ok response ->
     Options.ok response = true ->
     Options.text response = Options.Ok body ->
     Json.parse body = Some data ->
     forall first rest, Options.get_data data <> inl (JArray (first :: rest))) ->
  Options.loadModels env apiKey apiBaseUrl model
  = [ Options.setIsLoadingModels true;
      Options.setToast
        (u16 "No models retrieved. Please check if your API Key and API Base URL are correct")
        Options.toast_warning;
      Options.setIsLoadingModels false ]
  /\ forall env' apiKey' apiBaseUrl' model',
       existsb Options.is_error_toast
               (Options.loadModels env' apiKey' apiBaseUrl' model') = false.
Proof.
  intros Hkey Hfail. split.
  - unfold Options.loadModels.
    destruct apiKey as [|c k]; [congruence|]. cbn [Options.nonempty negb].
    set (base := if Options.nonempty apiBaseUrl then apiBaseUrl
                 else u16 "https://api.openai.com") in *.
    destruct (fetchModels_empty_unless_well_formed env (c :: k) (Some base))
      as (ids & -> & [-> | (response & body & data & elems & Hf & Hok & Ht & Hp & Hd & Hm & Hl)]);
      [reflexivity|].
    destruct elems as [|first rest].
    + destruct ids; [reflexivity | discriminate Hl].
    + now contradiction (Hfail response body data Hf Hok Ht Hp first rest).
  - clear. intros env apiKey apiBaseUrl model. unfold Options.loadModels.
    destruct (Options.nonempty apiKey); cbn [negb]; [|reflexivity].
    destruct (fetchModels_resolves env apiKey
                (Some (if Options.nonempty apiBaseUrl then apiBaseUrl
                       else u16 "https://api.openai.com"))) as [ids ->].
    destruct (List.length ids =? 0)%nat; [reflexivity|].
    cbn [app existsb Options.is_error_toast orb].
    rewrite !existsb_app. cbn.
    destruct (_ && _); reflexivity.
Qed.

(** X12.  A run of [loadModels] with an API key sets the loading flag
    first and clears it last, on every path, and touches it nowhere in
    between; without a key the flag is not touched at all. *)
Theorem loadModels_loading_flag env apiKey apiBaseUrl model :
  (apiKey = []
   /\ existsb Options.is_loading_call (Options.loadModels env apiKey apiBaseUrl model)
      = false)
  \/ (apiKey <> []
      /\ exists between,
           Options.loadModels env apiKey apiBaseUrl model
           = Options.setIsLoadingModels true :: between
             ++ [Options.setIsLoadingModels false]
           /\ existsb Options.is_loading_call between = false).
Proof.
  unfold Options.loadModels. destruct apiKey as [|c k]; cbn [Options.nonempty negb].
  - left. split; reflexivity.
  - right. split; [discriminate|]. eexists. split; [reflexivity|].
    destruct (Options.fetchModelsFromAPI _ _ _) as [ids|t]; [|reflexivity].
    destruct (List.length ids =? 0)%nat; [reflexivity|].
    cbn [existsb Options.is_loading_call orb]. rewrite existsb_app.
    destruct (_ && _); reflexivity.
Qed.

Lemma includes_In l s : Options.includes l s = true -> In (JString s) l.
Proof.
  unfold Options.includes. rewrite existsb_exists. intros (e & Hin & He).
  apply strict_eq_string_spec in He. now subst.
Qed.

(** X13.  Whenever [loadModels] replaces the list of models, the model
    selected afterwards is the one selected before if that is not empty
    and the new list has it, and the first entry of the new list
    otherwise; in both cases it is one of the new list. *)
Theorem loadModels_selects_listed_model env apiKey apiBaseUrl model models :
  In (Options.setModels models) (Options.loadModels env apiKey apiBaseUrl model) ->
  Options.selected_after (JString model)
    (Options.loadModels env apiKey apiBaseUrl model)
  = (if Options.nonempty model && Options.includes models model
     then JString model
     else nth 0 models JUndefined)
  /\ In (Options.selected_after (JString model)
           (Options.loadModels env apiKey apiBaseUrl model))
        models.
Proof.
  unfold Options.loadModels.
  destruct (Options.nonempty apiKey); cbn [negb].
  2: { intros [H | []]. discriminate H. }
  destruct (Options.fetchModelsFromAPI _ _ _) as [ids|t].
  2: { intros [H | [H | [H | []]]]; discriminate H. }
  destruct ids as [|first rest]; cbn [List.length Nat.eqb Nat.ltb Nat.leb andb nth].
  { intros [H | [H | [H | []]]]; discriminate H. }
  intros H.
  assert (E : models = first :: rest).
  { destruct H as [H | [H | H]]; try discriminate H; [congruence|].
    apply in_app_or in H as [H | [H | []]]; [|discriminate H].
    apply in_app_or in H as [H | [H | []]]; [|discriminate H].
    destruct (_ || _); [destruct H as [H | []]; discriminate H | destruct H]. }
  subst models.
  destruct (Options.nonempty model); cbn [negb orb andb].
  2: { cbn. split; [reflexivity | now left]. }
  destruct (Options.includes (first :: rest) model) eqn:Ec; cbn.
  - split; [reflexivity|]. exact (includes_In (first :: rest) model Ec).
  - split; [reflexivity | now left].
Qed.


(** X15.  The effect that keeps the configured model listed acts exactly
    when the model is not empty and the list lacks it: it then appends the
    model at the end, after which the list has the model and the effect
    has nothing left to do.  For an empty model, and for a model the list
    has, it does nothing. *)
Theorem keep_model_listed_settles model models :
  match Options.keep_model_listed model models with
  | Some update =>
    model <> [] /\ Options.includes models model = false
    /\ forall prev,
         update prev = prev ++ [JString model]
         /\ Options.includes (update prev) model = true
         /\ Options.keep_model_listed model (update prev) = None
  | None => model = [] \/ Options.includes models model = true
  end.
Proof.
  unfold Options.keep_model_listed.
  destruct model as [|c r]; cbn [Options.nonempty andb]; [now left|].
  destruct (Options.includes models (c :: r)) eqn:E; cbn [negb]; [now right|].
  split; [discriminate|]. split; [reflexivity|]. intros prev.
  assert (H : Options.includes (prev ++ [JString (c :: r)]) (c :: r) = true).
  { unfold Options.includes. rewrite existsb_app. cbn [existsb].
    rewrite (proj2 (strict_eq_string_spec _ _) eq_refl). now rewrite orb_true_r. }
  now rewrite H.
Qed.

Lemma trimStart_decompose s :
  exists spaces, s = spaces ++ Options.trimStart s /\ forallb Options.is_space spaces = true.
Proof.
  induction s as [|c s (sp & E & H)]; [exists []; split; reflexivity|].
  cbn [Options.trimStart]. destruct (Options.is_space c) eqn:Ec.
  - exists (c :: sp). cbn. rewrite Ec, H. split; [now f_equal | reflexivity].
  - exists []. split; reflexivity.
Qed.

Lemma trimStart_head s :
  match Options.trimStart s with
  | [] => forallb Options.is_space s = true
  | c :: _ => Options.is_space c = false /\ forallb Options.is_space s = false
  end.
Proof.
  induction s as [|c s IH]; [reflexivity|].
  cbn [Options.trimStart forallb]. destruct (Options.is_space c) eqn:Ec; cbn [andb].
  - exact IH.
  - now split.
Qed.

Lemma forallb_rev {A} (p : A -> bool) l : forallb p (rev l) = forallb p l.
Proof.
  induction l as [|x l IH]; [reflexivity|].
  cbn. rewrite forallb_app, IH. cbn. rewrite andb_true_r. apply andb_comm.
Qed.

(** X16.  [applyCustomModel] does nothing for a custom model that is
    blank, and otherwise hands [onChange] the model with the white space
    at both ends removed: a text that is not empty and neither begins nor
    ends with white space. *)
Theorem applyCustomModel_trims s :
  (forallb Options.is_space s = true /\ Options.applyCustomModel s = [])
  \/ (forallb Options.is_space s = false
      /\ Options.applyCustomModel s
         = [ Options.onChange (Options.trim s); Options.setCustomModel [];
             Options.setSearchTerm []; Options.setIsOpen false ]
      /\ Options.trim s <> []
      /\ Options.is_space (hd 0 (Options.trim s)) = false
      /\ Options.is_space (last (Options.trim s) 0) = false).
Proof.
  unfold Options.applyCustomModel, Options.trim, Options.trimEnd.
  pose proof (trimStart_head s) as Hs.
  destruct (Options.trimStart s) as [|c t] eqn:Et.
  { left. split; [exact Hs | reflexivity]. }
  destruct Hs as [Hc Hs]. right. split; [exact Hs|].
  pose proof (trimStart_head (rev (c :: t))) as Hr.
  destruct (trimStart_decompose (rev (c :: t))) as (sp & Esp & Hsp).
  destruct (Options.trimStart (rev (c :: t))) as [|d u] eqn:Eu.
  { rewrite forallb_rev in Hr. cbn in Hr. now rewrite Hc in Hr. }
  destruct Hr as [Hd _].
  assert (Erev : c :: t = rev u ++ d :: rev sp).
  { rewrite <- (rev_involutive (c :: t)), Esp, rev_app_distr. cbn [rev].
    now rewrite <- app_assoc. }
  cbn [rev]. assert (Hne : rev u ++ [d] <> []) by (now destruct (rev u)).
  destruct (rev u ++ [d]) as [|x y] eqn:Ex; [congruence|].
  cbn [Options.nonempty]. repeat split; [discriminate | |].
  - cbn [hd]. destruct (rev u) as [|x' y'] eqn:Erv; cbn in Ex, Erev.
    + injection Ex as <- _. exact Hd.
    + injection Ex as <- _. injection Erev as <- _. exact Hc.
  - rewrite <- Ex, last_last. exact Hd.
Qed.

Lemma fetchModels_ids_in_order_witness :
  Options.fetchModelsFromAPI (Options.serving 200 Options.two_models) (u16 "sk") None
  = Options.Ok [JString (u16 "gpt-4o"); JString (u16 "gpt-4o-mini")].
Proof.
  refine (fetchModels_ids_in_order
            (Options.serving 200 Options.two_models) (u16 "sk") None
            (Options.mkResponse true 200 (Options.Ok Options.two_models))
            Options.two_models
            (JObject [ (u16 "object", JString (u16 "list"));
                       (u16 "data",
                        JArray [ JObject [ (u16 "id", JString (u16 "gpt-4o"));
                                           (u16 "object", JString (u16 "model")) ];
                                 JObject [ (u16 "id", JString (u16 "gpt-4o-mini")) ] ]) ])
            [ JObject [ (u16 "id", JString (u16 "gpt-4o"));
                        (u16 "object", JString (u16 "model")) ];
              JObject [ (u16 "id", JString (u16 "gpt-4o-mini")) ] ]
            _ _ _ _ _ _);
    try (vm_compute; reflexivity).
  repeat (constructor; [split; discriminate|]). constructor.
Defined.

Lemma failed_refresh_warns_without_error_toast_witness :
  Options.loadModels (Options.serving 401 (wire "{'error':{'message':'Incorrect API key'}}"))
    (u16 "sk") [] (u16 "gpt-4o")
  = [ Options.setIsLoadingModels true;
      Options.setToast
        (u16 "No models retrieved. Please check if your API Key and API Base URL are correct")
        Options.toast_warning;
      Options.setIsLoadingModels false ].
Proof.
  refine (proj1 (failed_refresh_warns_without_error_toast
                   (Options.serving 401 (wire "{'error':{'message':'Incorrect API key'}}"))
                   (u16 "sk") [] (u16 "gpt-4o") _ _)).
  - discriminate.
  - intros response body data Hf Hok. vm_compute in Hf. injection Hf as <-.
    discriminate Hok.
Defined.

Lemma loadModels_selects_listed_model_witness :
  Options.selected_after (JString (u16 "gpt-3.5"))
    (Options.loadModels (Options.serving 200 Options.two_models)
       (u16 "sk") [] (u16 "gpt-3.5"))
  = JString (u16 "gpt-4o")
  /\ Options.selected_after (JString (u16 "gpt-4o-mini"))
       (Options.loadModels (Options.serving 200 Options.two_models)
          (u16 "sk") [] (u16 "gpt-4o-mini"))
     = JString (u16 "gpt-4o-mini").
Proof.
  split.
  - refine (eq_trans
              (proj1 (loadModels_selects_listed_model
                        (Options.serving 200 Options.two_models) (u16 "sk") []
                        (u16 "gpt-3.5")
                        [JString (u16 "gpt-4o"); JString (u16 "gpt-4o-mini")] _)) _);
      [vm_compute; right; left; reflexivity | vm_compute; reflexivity].
  - refine (eq_trans
              (proj1 (loadModels_selects_listed_model
                        (Options.serving 200 Options.two_models) (u16 "sk") []
                        (u16 "gpt-4o-mini")
                        [JString (u16 "gpt-4o"); JString (u16 "gpt-4o-mini")] _)) _);
      [vm_compute; right; left; reflexivity | vm_compute; reflexivity].
Defined.

